(** * Watched-state sync between Plex and Shoko: a shallow embedding of
      [Contents/Scripts/watched-sync.py] and the properties of its
      reconciliation engine. *)

From Stdlib Require Import String Ascii List Bool ZArith Arith Lia DecimalString.
Import ListNotations.
Open Scope string_scope.

Set Implicit Arguments.
Set Warnings "-register-all".

(** ** Python strings

    A Python [str] is modelled by a Rocq [string]: its UTF-8 bytes.  The only
    characters the script inspects (path separators, digits, the letters of
    the unit suffixes, [y], [n]) are ASCII, and no character outside ASCII
    lower-cases to an ASCII letter used here, so [str.lower] acts on the
    ASCII upper-case letters alone. *)

Definition lower_char (c : ascii) : ascii :=
  let n := nat_of_ascii c in
  if (65 <=? n)%nat && (n <=? 90)%nat then ascii_of_nat (n + 32) else c.

Fixpoint lower (s : string) : string :=
  match s with
  | EmptyString => EmptyString
  | String c r => String (lower_char c) (lower r)
  end.

Fixpoint contains_char (p : ascii -> bool) (s : string) : bool :=
  match s with
  | EmptyString => false
  | String c r => p c || contains_char p r
  end.

(** [p[i:]] where [i] is one past the last character satisfying [sep]
    (the whole of [p] when there is none). *)
Fixpoint after_last (sep : ascii -> bool) (p : string) : string :=
  match p with
  | EmptyString => EmptyString
  | String c r =>
      if contains_char sep r then after_last sep r
      else if sep c then r else p
  end.

Fixpoint map_string (f : ascii -> ascii) (s : string) : string :=
  match s with
  | EmptyString => EmptyString
  | String c r => String (f c) (map_string f r)
  end.

(** ** [os.path]

    [os.path] is [posixpath] or [ntpath] according to the platform the
    script runs on. *)

Inductive flavour := Posix | Nt.

Definition slash : ascii := "/"%char.
Definition backslash : ascii := "\"%char.

(** [os.path.sep] *)
Definition sep (fl : flavour) : ascii :=
  match fl with Posix => slash | Nt => backslash end.

Definition is_sep (fl : flavour) (c : ascii) : bool :=
  match fl with
  | Posix => Ascii.eqb c slash
  | Nt => Ascii.eqb c backslash || Ascii.eqb c slash
  end.

(** [ntpath.splitdrive] (CPython 3.7 to 3.10): a drive letter with its
    colon, or the [\\host\share] part of a UNC path. *)
Definition nt_splitdrive (p : string) : string * string :=
  if (2 <=? String.length p)%nat then
    let normp := map_string (fun c => if Ascii.eqb c slash then backslash else c) p in
    if String.eqb (substring 0 2 normp) "\\" && negb (String.eqb (substring 2 1 normp) "\") then
      match index 2 "\" normp with
      | None => (EmptyString, p)
      | Some i =>
          match index (i + 1) "\" normp with
          | Some i2 =>
              if (i2 =? i + 1)%nat then (EmptyString, p)
              else (substring 0 i2 p, substring i2 (String.length p - i2) p)
          | None => (p, EmptyString)
          end
      end
    else if String.eqb (substring 1 1 normp) ":" then
      (substring 0 2 p, substring 2 (String.length p - 2) p)
    else (EmptyString, p)
  else (EmptyString, p).

(** [os.path.basename] *)
Definition basename (fl : flavour) (p : string) : string :=
  match fl with
  | Posix => after_last (is_sep Posix) p
  | Nt => after_last (is_sep Nt) (snd (nt_splitdrive p))
  end.

(** The export branch's key: [os.path.sep + os.path.basename(file)]. *)
Definition match_key (fl : flavour) (file : string) : string :=
  String (sep fl) (basename fl file).

(** ** [urllib.parse.quote] with its default safe set ([/]) *)

Definition is_unreserved (c : ascii) : bool :=
  let n := nat_of_ascii c in
  ((65 <=? n) && (n <=? 90) || (97 <=? n) && (n <=? 122) || (48 <=? n) && (n <=? 57))%nat
  || Ascii.eqb c "_" || Ascii.eqb c "." || Ascii.eqb c "-" || Ascii.eqb c "~".

Definition hex_digit (n : nat) : ascii :=
  if (n <? 10)%nat then ascii_of_nat (48 + n) else ascii_of_nat (55 + n).

Fixpoint quote (s : string) : string :=
  match s with
  | EmptyString => EmptyString
  | String c r =>
      if is_unreserved c || Ascii.eqb c slash then String c (quote r)
      else
        let n := nat_of_ascii c in
        String "%" (String (hex_digit (n / 16)) (String (hex_digit (n mod 16)) (quote r)))
  end.

(** ** The regular expressions of [arg_parse]

    A backtracking matcher for the fragment the script uses: literals,
    ranges, concatenation, alternation and the two anchors.  [re.match]
    anchors at position 0; without [re.MULTILINE] the pattern [^] holds at
    position 0 only and [$] holds at the end of the string or just before a
    newline that ends it. *)

Inductive re :=
| Lit (c : ascii)
| Range (lo hi : ascii)
| Cat (r1 r2 : re)
| Alt (r1 r2 : re)
| Eps
| Bol
| Eol.

Definition newline : ascii := ascii_of_nat 10.

Fixpoint re_go (r : re) (pos : nat) (s : string) (k : nat -> string -> bool) : bool :=
  match r with
  | Lit c =>
      match s with
      | String a t => if Ascii.eqb a c then k (S pos) t else false
      | EmptyString => false
      end
  | Range lo hi =>
      match s with
      | String a t =>
          if (nat_of_ascii lo <=? nat_of_ascii a)%nat && (nat_of_ascii a <=? nat_of_ascii hi)%nat
          then k (S pos) t else false
      | EmptyString => false
      end
  | Cat r1 r2 => re_go r1 pos s (fun p t => re_go r2 p t k)
  | Alt r1 r2 => re_go r1 pos s k || re_go r2 pos s k
  | Eps => k pos s
  | Bol => if (pos =? 0)%nat then k pos s else false
  | Eol =>
      match s with
      | EmptyString => k pos s
      | String a EmptyString => if Ascii.eqb a newline then k pos s else false
      | _ => false
      end
  end.

(** [re.match(r, s)] is not [None] *)
Definition re_match (r : re) (s : string) : bool := re_go r 0 s (fun _ _ => true).

Fixpoint re_word (w : string) : re :=
  match w with
  | EmptyString => Eps
  | String c r => Cat (Lit c) (re_word r)
  end.

(** [r{0,n}] *)
Fixpoint re_upto (r : re) (n : nat) : re :=
  match n with
  | O => Eps
  | S n' => Alt (Cat r (re_upto r n')) Eps
  end.

Definition d19 : re := Range "1" "9".
Definition d09 : re := Range "0" "9".

(** [(?:m|h|d|w|mon|y)] *)
Definition re_units : re :=
  Alt (Lit "m") (Alt (Lit "h") (Alt (Lit "d") (Alt (Lit "w") (Alt (re_word "mon") (Lit "y"))))).

(** The pattern of line 46:
    [^(?:[1-9]|[1-9][0-9]|[1-9][0-9][0-9])(?:m|h|d|w|mon|y)$] *)
Definition range_re : re :=
  Cat Bol
    (Cat (Alt d19 (Alt (Cat d19 d09) (Cat d19 (Cat d09 d09))))
       (Cat re_units Eol)).

(** The pattern as the interface description writes it:
    [^[1-9][0-9]{0,2}(m|h|d|w|mon|y)$] *)
Definition spec_range_re : re :=
  Cat Bol (Cat d19 (Cat (re_upto d09 2) (Cat re_units Eol))).

(** ** Exceptions and results *)

Inductive exn :=
| ArgumentTypeError
| IndexError
| KeyError
| TypeError
| EOFError
| SkipUser
| ServiceError (what : string).

Inductive outcome (A : Type) :=
| Ret (a : A)
| Raise (e : exn)
| Exit (code : Z).
Arguments Ret {A} a.
Arguments Raise {A} e.
Arguments Exit {A} code.

(** [arg_parse] (lines 44 to 48) *)
Definition arg_parse (arg : string) : outcome string :=
  let arg := lower arg in
  if negb (re_match range_re arg) && negb (String.eqb arg "import")
  then Raise ArgumentTypeError
  else Ret arg.

(** ** The command line as [argparse] reads it

    [parser.parse_args()] (line 53) for the parser of lines 51 and 52: its
    only options are [-h] and [--help], which [ArgumentParser] adds by
    default, and its only positional is [relative_date], with [nargs='?'].
    The functions below follow CPython's [argparse] on a command line of
    one argument. *)

Definition is_digit (c : ascii) : bool :=
  (nat_of_ascii "0" <=? nat_of_ascii c)%nat && (nat_of_ascii c <=? nat_of_ascii "9")%nat.

Fixpoint skip_digits (s : string) : string :=
  match s with
  | String c r => if is_digit c then skip_digits r else s
  | EmptyString => s
  end.

(** where [$] holds: at the end, or before a newline that ends the string *)
Definition at_end (s : string) : bool :=
  match s with
  | EmptyString => true
  | String c EmptyString => Ascii.eqb c newline
  | _ => false
  end.

(** [_negative_number_matcher]: [^-\d+$|^-\d*\.\d+$] *)
Definition negative_number (s : string) : bool :=
  match s with
  | String c r =>
      Ascii.eqb c "-" &&
      (let r1 := skip_digits r in
       (negb (String.length r1 =? String.length r)%nat && at_end r1)
       || match r1 with
          | String d r2 =>
              let r3 := skip_digits r2 in
              Ascii.eqb d "." && negb (String.length r3 =? String.length r2)%nat && at_end r3
          | EmptyString => false
          end)
  | EmptyString => false
  end.

(** [s.split('=', 1)] when ['=' in s] *)
Fixpoint split_eq (s : string) : option (string * string) :=
  match s with
  | EmptyString => None
  | String c r =>
      if Ascii.eqb c "=" then Some (EmptyString, r)
      else match split_eq r with
           | Some (a, b) => Some (String c a, b)
           | None => None
           end
  end.

(** [_option_string_actions]: both strings name the help action *)
Definition option_strings : list string := ["-h"; "--help"].

Definition is_option_string (s : string) : bool := existsb (String.eqb s) option_strings.

(** an option string of the parser and the explicit argument found with it *)
Definition option_tuple : Type := string * option string.

(** [_get_option_tuples]; [None] is its [self.error] *)
Definition get_option_tuples (option_string : string) : option (list option_tuple) :=
  match option_string with
  | String c0 (String c1 rest) =>
      if Ascii.eqb c0 "-" && Ascii.eqb c1 "-" then
        let (option_prefix, explicit_arg) :=
          match split_eq option_string with
          | Some (before, after) => (before, Some after)
          | None => (option_string, None)
          end in
        Some (flat_map (fun o => if String.prefix option_prefix o then [(o, explicit_arg)]
                                 else []) option_strings)
      else if Ascii.eqb c0 "-" && negb (Ascii.eqb c1 "-") then
        let short_option_prefix := String c0 (String c1 EmptyString) in
        Some (flat_map (fun o => if String.eqb o short_option_prefix then [(o, Some rest)]
                                 else if String.prefix option_string o then [(o, None)]
                                 else []) option_strings)
      else None
  | _ => None
  end.

(** what one argument is taken for *)
Inductive reading :=
| Separator                        (* [--]: pattern [-] *)
| Positional                       (* pattern [A] *)
| HelpOption (t : option_tuple)    (* pattern [O], the help action *)
| UnknownOption                    (* pattern [O], no action *)
| ParserError.                     (* [self.error] *)

(** [_parse_optional] *)
Definition parse_optional (arg_string : string) : reading :=
  match arg_string with
  | EmptyString => Positional
  | String c _ =>
      if negb (Ascii.eqb c "-") then Positional
      else if is_option_string arg_string then HelpOption (arg_string, None)
      else if (String.length arg_string =? 1)%nat then Positional
      else
        match (match split_eq arg_string with
               | Some (option_string, explicit_arg) =>
                   if is_option_string option_string
                   then Some (option_string, Some explicit_arg) else None
               | None => None
               end) with
        | Some t => HelpOption t
        | None =>
            match get_option_tuples arg_string with
            | None => ParserError
            | Some (_ :: _ :: _) => ParserError
            | Some [t] => HelpOption t
            | Some [] =>
                if negative_number arg_string then Positional
                else if contains_char (Ascii.eqb " ") arg_string then Positional
                else UnknownOption
            end
        end
  end.

(** the first loop of [_parse_known_args], for one argument *)
Definition read_argument (arg_string : string) : reading :=
  if String.eqb arg_string "--" then Separator else parse_optional arg_string.

(** the loop of [consume_optional] over the single-dash flags combined in
    one argument: [true] when every one of them is an option of the parser *)
Fixpoint combined_flags (explicit_arg : string) : bool :=
  match explicit_arg with
  | EmptyString => false
  | String c rest =>
      is_option_string (String "-" (String c EmptyString)) &&
      match rest with
      | EmptyString => true
      | _ => combined_flags rest
      end
  end.

(** [consume_optional] on the help action, which takes no argument: [true]
    when the action is taken, [false] for [ignored explicit argument] *)
Definition takes_help (t : option_tuple) : bool :=
  match t with
  | (_, None) => true
  | (String _ (String c1 _), Some explicit_arg) =>
      negb (Ascii.eqb c1 "-") && negb (String.eqb explicit_arg EmptyString) &&
      combined_flags explicit_arg
  | _ => false
  end.

(** ** Python values

    What [requests]' [.json()] returns.  JSON numbers are restricted to
    integers: the script reads numbers only as episode IDs and as the
    [status] of an authentication reply. *)

Inductive pyval :=
| PNone
| PBool (b : bool)
| PInt (z : Z)
| PStr (s : string)
| PList (l : list pyval)
| PDict (kv : list (string * pyval)).

Fixpoint assoc (k : string) (kv : list (string * pyval)) : option pyval :=
  match kv with
  | [] => None
  | (k', v) :: r => if String.eqb k k' then Some v else assoc k r
  end.

Fixpoint chars (s : string) : list pyval :=
  match s with
  | EmptyString => []
  | String c r => PStr (String c EmptyString) :: chars r
  end.

(** [v[i]] for an integer [i >= 0] *)
Definition py_index (v : pyval) (i : nat) : outcome pyval :=
  match v with
  | PList l => match nth_error l i with Some x => Ret x | None => Raise IndexError end
  | PStr s => match get i s with Some c => Ret (PStr (String c EmptyString)) | None => Raise IndexError end
  | PDict _ => Raise KeyError
  | _ => Raise TypeError
  end.

(** [v[k]] for a string [k] *)
Definition py_item (v : pyval) (k : string) : outcome pyval :=
  match v with
  | PDict kv => match assoc k kv with Some x => Ret x | None => Raise KeyError end
  | _ => Raise TypeError
  end.

(** the elements [for x in v] runs over *)
Definition py_iter (v : pyval) : outcome (list pyval) :=
  match v with
  | PList l => Ret l
  | PDict kv => Ret (map (fun p => PStr (fst p)) kv)
  | PStr s => Ret (chars s)
  | _ => Raise TypeError
  end.

(** [v == None] *)
Definition py_is_none (v : pyval) : bool :=
  match v with PNone => true | _ => false end.

Definition pyval_is_str (k : string) (v : pyval) : bool :=
  match v with PStr s => String.eqb s k | _ => false end.

Fixpoint is_substring (k s : string) : bool :=
  prefix k s || match s with EmptyString => false | String _ r => is_substring k r end.

(** [k in v] for a string [k] *)
Definition py_contains (k : string) (v : pyval) : outcome bool :=
  match v with
  | PDict kv => Ret (match assoc k kv with Some _ => true | None => false end)
  | PList l => Ret (existsb (pyval_is_str k) l)
  | PStr s => Ret (is_substring k s)
  | _ => Raise TypeError
  end.

(** [v in (400, 401)] *)
Definition py_is_400_or_401 (v : pyval) : bool :=
  match v with
  | PInt z => Z.eqb z 400 || Z.eqb z 401
  | _ => false
  end.

Definition str_of_Z (z : Z) : string := NilZero.string_of_int (Z.to_int z).

Definition join_comma (l : list string) : string :=
  match l with
  | [] => EmptyString
  | x :: r => fold_left (fun acc y => acc ++ ", " ++ y) r x
  end.

(** [repr(v)]; a string is written between apostrophes as it is (Python
    escapes apostrophes, backslashes and unprintable characters there) *)
Fixpoint py_repr (v : pyval) : string :=
  match v with
  | PNone => "None"
  | PBool true => "True"
  | PBool false => "False"
  | PInt z => str_of_Z z
  | PStr s => "'" ++ s ++ "'"
  | PList l => "[" ++ join_comma (map py_repr l) ++ "]"
  | PDict kv =>
      "{" ++ join_comma (map (fun p => "'" ++ fst p ++ "': " ++ py_repr (snd p)) kv) ++ "}"
  end.

(** [str(v)], what an f-string writes for [{v}] *)
Definition py_str (v : pyval) : string :=
  match v with
  | PStr s => s
  | _ => py_repr v
  end.

(** [os.path.basename(v)]: [os.fspath] refuses what is not a string *)
Definition py_basename (fl : flavour) (v : pyval) : outcome string :=
  match v with
  | PStr s => Ret (basename fl s)
  | _ => Raise TypeError
  end.

(** ** Configuration ([config.py], read as [cfg]) *)

Record config := {
  plex_token : string;                  (* Plex['X-Plex-Token'], empty when unset *)
  plex_username : string;
  plex_password : string;
  server_name : string;
  library_names : list string;
  extra_users : option (list string);   (* Plex['ExtraUsers'], None or a list *)
  sync_admin : bool;
  shoko_hostname : string;
  shoko_port : string;
  shoko_username : string;
  shoko_password : string
}.

(** ** The two services, seen through the calls the script makes *)

Record account := { account_id : Z; account_name : string }.
Record plex_user := { user_id : Z }.
Record episode := { title : string; parts : list string }.

Inductive http_method := GET | POST.

Inductive msg :=
| PlexCredentialsInvalid               (* line 63 *)
| Failed (error : exn)                 (* line 74 *)
| ShokoUnreachable                     (* line 80 *)
| ShokoCredentialsInvalid              (* line 83 *)
| Header                               (* line 87 *)
| Generating                           (* line 90 *)
| PleaseEnterYN                        (* line 105 *)
| ServerNameNotFound                   (* line 111 *)
| Querying (a : account) (server library : string)   (* line 116 *)
| SectionFailed (error : exn)          (* line 120 *)
| Importing (filepath : string)        (* line 130 *)
| Relaying (filepath title : string)   (* line 139 *)
| FailedMatch (filepath : string)      (* line 143 *)
| Finished                             (* line 144 *)
| Complete                             (* line 145 *)
| Usage                                (* argparse's error message *)
| Help.                                (* argparse's help message *)

Inductive event :=
| Print (m : msg)
| Input (a : account)                                  (* the prompt of line 102 *)
| PlexLogin (user pass : string)                       (* MyPlexAccount(user, pass) *)
| PlexUser (username : string)                         (* admin.user(username) *)
| PlexQuery (m : http_method) (url : string)           (* admin.query(url, method=...) *)
| PlexTokenLogin (token : option string)               (* MyPlexAccount(token=...) *)
| PlexConnect (a : account) (server : string)          (* account.resource(name).connect() *)
| PlexSection (a : account) (library : string)         (* plex.library.section(library) *)
| PlexSearch (a : account) (library : string)
    (unwatched : bool) (last_viewed_after : option string)  (* section.searchEpisodes(...) *)
| PlexEpisodeCall (a : account) (library : string)
    (e : episode) (method : string)                    (* episode.<method>() *)
| Http (m : http_method) (url : string) (json : option pyval).  (* requests.get / requests.post *)

(** Each call is answered from the history of the run so far: the services
    are arbitrary deterministic state machines, and any call may raise. *)
Record services := {
  login : list event -> account + exn;
  lookup_user : list event -> string -> plex_user + exn;
  query : list event -> http_method -> string -> option string + exn;
  token_login : list event -> option string -> account + exn;
  connect : list event -> account -> string -> unit + exn;
  section : list event -> account -> string -> unit + exn;
  search_episodes : list event -> account -> string -> bool -> option string -> list episode + exn;
  episode_call : list event -> account -> string -> episode -> string -> unit + exn;
  http : list event -> http_method -> string -> option pyval -> pyval + exn
}.

(** ** The script's monad: a trace of calls, the lines waiting on standard
    input and the mutable list [accounts] *)

Record state := {
  trace : list event;
  stdin : list string;
  accounts : list account
}.

Definition M (A : Type) := state -> outcome A * state.

Definition ret {A} (a : A) : M A := fun st => (Ret a, st).

Definition bind {A B} (m : M A) (f : A -> M B) : M B :=
  fun st =>
    match m st with
    | (Ret a, st') => f a st'
    | (Raise e, st') => (Raise e, st')
    | (Exit c, st') => (Exit c, st')
    end.

Notation "x <- m ;; k" := (bind m (fun x => k))
  (at level 61, m at next level, right associativity).
Notation "m ;; k" := (bind m (fun _ => k))
  (at level 61, right associativity).

Definition raise {A} (e : exn) : M A := fun st => (Raise e, st).

(** [exit(code)]: [SystemExit] is not an [Exception], no handler of the
    script catches it *)
Definition exit {A} (code : Z) : M A := fun st => (Exit code, st).

Definition lift {A} (o : outcome A) : M A := fun st => (o, st).

Definition emit (e : event) (st : state) : state :=
  {| trace := trace st ++ [e]; stdin := stdin st; accounts := accounts st |}.

(** a call to a service: it is recorded, then answered *)
Definition perform {A} (e : event) (answer : list event -> A + exn) : M A :=
  fun st =>
    match answer (trace st) with
    | inl a => (Ret a, emit e st)
    | inr x => (Raise x, emit e st)
    end.

Definition print (m : msg) : M unit := fun st => (Ret tt, emit (Print m) st).

(** [try: m except Exception as error: h error] *)
Definition try_except {A} (m : M A) (h : exn -> M A) : M A :=
  fun st =>
    match m st with
    | (Raise e, st') => h e st'
    | r => r
    end.

(** [for x in l: body x] *)
Fixpoint for_each {A} (l : list A) (body : A -> M unit) : M unit :=
  match l with
  | [] => ret tt
  | x :: r => body x ;; for_each r body
  end.

(** a list comprehension [[f x for x in l]] *)
Fixpoint comprehension {A B} (l : list A) (f : A -> M B) : M (list B) :=
  match l with
  | [] => ret []
  | x :: r => y <- f x ;; ys <- comprehension r f ;; ret (y :: ys)
  end.

Definition get_accounts : M (list account) := fun st => (Ret (accounts st), st).

Definition set_accounts (l : list account) : M unit :=
  fun st => (Ret tt, {| trace := trace st; stdin := stdin st; accounts := l |}).

(** [accounts.append(a)] *)
Definition append_account (a : account) : M unit :=
  fun st => (Ret tt, {| trace := trace st; stdin := stdin st; accounts := accounts st ++ [a] |}).

(** ** The confirmation prompt (lines 101 to 105)

    [while True] reads a line per turn; [input] raises [EOFError] when
    standard input is exhausted, so the loop is a recursion on the lines
    that are left. *)
Fixpoint confirm_lines (a : account) (lines : list string) (tr : list event)
  : outcome unit * list string * list event :=
  match lines with
  | [] => (Raise EOFError, [], (tr ++ [Input a])%list)
  | import_confirmation :: rest =>
      if String.eqb (lower import_confirmation) "y" then (Ret tt, rest, (tr ++ [Input a])%list)
      else if String.eqb (lower import_confirmation) "n" then (Raise SkipUser, rest, (tr ++ [Input a])%list)
      else confirm_lines a rest (tr ++ [Input a; Print PleaseEnterYN])%list
  end.

Definition confirm (a : account) : M unit :=
  fun st =>
    let '(o, rest, tr) := confirm_lines a (stdin st) (trace st) in
    (o, {| trace := tr; stdin := rest; accounts := accounts st |}).

(** [try: m except SkipUser: h] *)
Definition except_skip_user {A} (m : M A) (h : M A) : M A :=
  fun st =>
    match m st with
    | (Raise SkipUser, st') => h st'
    | r => r
    end.

Section Script.

Variable fl : flavour.      (* the platform's os.path *)
Variable cfg : config.
Variable svc : services.

Definition base_url : string :=
  "http://" ++ shoko_hostname cfg ++ ":" ++ shoko_port cfg.

Definition auth_url : string := base_url ++ "/api/auth".

Definition auth_body : pyval :=
  PDict [("user", PStr (shoko_username cfg)); ("pass", PStr (shoko_password cfg));
         ("device", PStr "Shoko Relay Scripts for Plex")].

Definition switch_url (user : plex_user) : string :=
  "https://plex.tv/api/home/users/" ++ str_of_Z (user_id user) ++ "/switch".

Definition watched_list_url (key : string) : string :=
  base_url ++ "/api/v3/Episode?pageSize=0&page=1&includeWatched=only&includeFiles=true&apikey=" ++ key.

Definition path_ends_with_url (filepath key : string) : string :=
  base_url ++ "/api/v3/File/PathEndsWith?path=" ++ quote filepath ++ "&limit=0&apikey=" ++ key.

Definition watched_true_url (id key : string) : string :=
  base_url ++ "/api/v3/Episode/" ++ id ++ "/Watched/true?apikey=" ++ key.

(** [{auth["apikey"]}] inside an f-string *)
Definition apikey (auth : pyval) : M string :=
  k <- lift (py_item auth "apikey") ;; ret (py_str k).

Definition requests_get (url : string) : M pyval :=
  perform (Http GET url None) (fun h => http svc h GET url None).

Definition requests_post (url : string) (json : option pyval) : M pyval :=
  perform (Http POST url json) (fun h => http svc h POST url json).

(** the string handed to [type]: the argument or the default, for
    argparse converts a string default as well; an [ArgumentTypeError]
    becomes the usage message and [exit(2)] *)
Definition convert (arg_string : string) : M string :=
  try_except (lift (arg_parse arg_string)) (fun _ => print Usage ;; exit 2).

(** lines 51 to 54: the help action prints the help and exits with status
    0; an option that is misused or unknown is an error like a refused
    value; a lone [--] leaves the positional with its default *)
Definition parse_args (argv : option string) : M (string * bool) :=
  relative_date <-
    match argv with
    | None => convert "999y"
    | Some arg_string =>
        match read_argument arg_string with
        | Separator => convert "999y"
        | Positional => convert arg_string
        | HelpOption t =>
            if takes_help t then print Help ;; exit 0 else print Usage ;; exit 2
        | UnknownOption => print Usage ;; exit 2
        | ParserError => print Usage ;; exit 2
        end
    end ;;
  if String.eqb relative_date "import" then ret ("999y", true)
  else ret (relative_date, false).

(** lines 57 to 64 *)
Definition plex_admin : M account :=
  try_except
    (if negb (String.eqb (plex_token cfg) EmptyString)
     then perform (PlexTokenLogin (Some (plex_token cfg)))
            (fun h => token_login svc h (Some (plex_token cfg)))
     else perform (PlexLogin (plex_username cfg) (plex_password cfg)) (login svc))
    (fun _ => print PlexCredentialsInvalid ;; exit 1).

(** lines 67 to 74 *)
Definition resolve_accounts (admin : account) : M unit :=
  set_accounts (if sync_admin cfg then [admin] else []) ;;
  match extra_users cfg with
  | Some ((_ :: _) as usernames) =>
      try_except
        (extra_users <- comprehension usernames
           (fun username => perform (PlexUser username) (fun h => lookup_user svc h username)) ;;
         data <- comprehension extra_users
           (fun user => perform (PlexQuery POST (switch_url user))
                          (fun h => query svc h POST (switch_url user))) ;;
         for_each data
           (fun userID =>
              a <- perform (PlexTokenLogin userID) (fun h => token_login svc h userID) ;;
              append_account a))
        (fun error => print (Failed error))
  | _ => ret tt
  end.

(** lines 77 to 84 *)
Definition shoko_auth : M pyval :=
  auth <- try_except (requests_post auth_url (Some auth_body))
            (fun _ => print ShokoUnreachable ;; exit 1) ;;
  has_status <- lift (py_contains "status" auth) ;;
  rejected <- (if has_status : bool
               then status <- lift (py_item auth "status") ;; ret (py_is_400_or_401 status)
               else ret false) ;;
  if rejected : bool then print ShokoCredentialsInvalid ;; exit 1
  else ret auth.

(** lines 89 to 94 *)
Definition watched_filename (file : pyval) : M string :=
  files <- lift (py_item file "Files") ;;
  file0 <- lift (py_index files 0) ;;
  locations <- lift (py_item file0 "Locations") ;;
  location0 <- lift (py_index locations 0) ;;
  path <- lift (py_item location0 "RelativePath") ;;
  lift (py_basename fl path).

Definition generate_watched_episodes (auth : pyval) : M (list string) :=
  print Generating ;;
  key <- apikey auth ;;
  shoko_watched <- requests_get (watched_list_url key) ;;
  records <- lift (py_item shoko_watched "List") ;;
  records <- lift (py_iter records) ;;
  comprehension records watched_filename.

(** lines 126 to 130, for one part of one episode *)
Definition import_part (a : account) (library : string) (watched_episodes : list string)
    (e : episode) (file : string) : M unit :=
  let filepath := basename fl file in
  if existsb (String.eqb filepath) watched_episodes then
    perform (PlexEpisodeCall a library e "markPlayed")
      (fun h => episode_call svc h a library e "markPlayed") ;;
    print (Importing filepath)
  else ret tt.

(** line 141 *)
Definition mark_watched (auth : pyval) (EpisodeID : pyval) : M unit :=
  id <- lift (py_item EpisodeID "ID") ;;
  key <- apikey auth ;;
  requests_post (watched_true_url (py_str id) key) None ;;
  ret tt.

(** lines 138 to 141 *)
Definition relay (auth : pyval) (e : episode) (filepath : string) (path_ends_with : pyval)
  : M unit :=
  file0 <- lift (py_index path_ends_with 0) ;;
  watched <- lift (py_item file0 "Watched") ;;
  if py_is_none watched then
    print (Relaying filepath (title e)) ;;
    file0 <- lift (py_index path_ends_with 0) ;;
    series <- lift (py_item file0 "SeriesIDs") ;;
    series0 <- lift (py_index series 0) ;;
    ids <- lift (py_item series0 "EpisodeIDs") ;;
    ids <- lift (py_iter ids) ;;
    for_each ids (mark_watched auth)
  else ret tt.

(** lines 135 to 143, for one part of one episode *)
Definition export_part (auth : pyval) (e : episode) (file : string) : M unit :=
  let filepath := match_key fl file in
  key <- apikey auth ;;
  path_ends_with <- requests_get (path_ends_with_url filepath key) ;;
  try_except (relay auth e filepath path_ends_with)
    (fun _ => print (FailedMatch filepath)).

(** lines 125 to 130: the loops over the episodes found and their parts *)
Definition import_episodes (a : account) (library : string) (watched_episodes : list string)
    (episodes : list episode) : M unit :=
  for_each episodes
    (fun e => for_each (parts e) (import_part a library watched_episodes e)).

(** lines 133 to 143: the loops over the episodes found and their parts *)
Definition export_episodes (auth : pyval) (episodes : list episode) : M unit :=
  for_each episodes (fun e => for_each (parts e) (export_part auth e)).

(** lines 115 to 144, for one library *)
Definition sync_library (shoko_import : bool) (relative_date : string) (auth : pyval)
    (watched_episodes : list string) (a : account) (library : string) : M unit :=
  print (Querying a (server_name cfg) library) ;;
  found <- try_except
             (perform (PlexSection a library) (fun h => section svc h a library) ;; ret true)
             (fun error => print (SectionFailed error) ;; ret false) ;;
  if found : bool then
    (if shoko_import then
       episodes <- perform (PlexSearch a library true None)
                     (fun h => search_episodes svc h a library true None) ;;
       import_episodes a library watched_episodes episodes
     else
       episodes <- perform (PlexSearch a library false (Some relative_date))
                     (fun h => search_episodes svc h a library false (Some relative_date)) ;;
       export_episodes auth episodes) ;;
    print Finished
  else ret tt.

(** lines 108 to 144: the libraries of one account *)
Definition sync_libraries (shoko_import : bool) (relative_date : string) (auth : pyval)
    (watched_episodes : list string) (a : account) : M unit :=
  try_except (perform (PlexConnect a (server_name cfg)) (fun h => connect svc h a (server_name cfg)))
    (fun _ => print ServerNameNotFound ;; exit 1) ;;
  for_each (library_names cfg)
    (sync_library shoko_import relative_date auth watched_episodes a).

(** lines 96 to 144, for one account *)
Definition sync_account (shoko_import : bool) (relative_date : string) (auth : pyval)
    (watched_episodes : list string) (a : account) : M unit :=
  go <- (if shoko_import
         then except_skip_user (confirm a ;; ret true) (ret false)
         else ret true) ;;
  if go : bool then sync_libraries shoko_import relative_date auth watched_episodes a
  else ret tt.

(** lines 86 to 145 *)
Definition engine (shoko_import : bool) (relative_date : string) (auth : pyval) : M unit :=
  print Header ;;
  watched_episodes <- (if shoko_import then generate_watched_episodes auth else ret []) ;;
  accounts <- get_accounts ;;
  for_each accounts (sync_account shoko_import relative_date auth watched_episodes) ;;
  print Complete.

(** the whole script *)
Definition main (argv : option string) : M unit :=
  args <- parse_args argv ;;
  admin <- plex_admin ;;
  resolve_accounts admin ;;
  auth <- shoko_auth ;;
  engine (snd args) (fst args) auth.

End Script.

Definition initial (lines : list string) : state :=
  {| trace := []; stdin := lines; accounts := [] |}.

(** a run: what happened and how it ended *)
Definition run (fl : flavour) (cfg : config) (svc : services)
    (argv : option string) (lines : list string) : outcome unit * list event :=
  let r := main fl cfg svc argv (initial lines) in (fst r, trace (snd r)).

(** ** The metadata service's suffix query *)

Fixpoint is_suffix (k s : string) : bool :=
  String.eqb k s || match s with EmptyString => false | String _ r => is_suffix k r end.

Definition unify_seps (s : string) : string :=
  map_string (fun c => if Ascii.eqb c backslash then slash else c) s.

(** Modelled from the spec: the metadata service's [queryFilesBySuffix]
    (the server behind [/api/v3/File/PathEndsWith], which is not part of
    this repository): a stored path matches when it ends with the key, the
    separators of either platform being taken as the same. *)
Definition path_ends_with (stored key : string) : bool :=
  is_suffix (unify_seps key) (unify_seps stored).

(** ** A small installation, used to run the script on concrete inputs *)

Definition demo_cfg : config :=
  {| plex_token := "t0"; plex_username := "admin"; plex_password := "pw";
     server_name := "home"; library_names := ["Anime"];
     extra_users := None; sync_admin := true;
     shoko_hostname := "shoko"; shoko_port := "8111";
     shoko_username := "u"; shoko_password := "p" |}.

Definition admin0 : account := {| account_id := 1; account_name := "admin" |}.
Definition kid : account := {| account_id := 2; account_name := "kid" |}.

Definition account_of_token (t : option string) : account + exn :=
  match t with
  | Some "t0" => inl admin0
  | Some "t-kid" => inl kid
  | _ => inr (ServiceError "unauthorized")
  end.

(** Plex with the home user [kid] (id 7) and fixed search results; Shoko
    answering [web]. *)
Definition demo_services
    (found : account -> string -> bool -> list episode)
    (web : http_method -> string -> pyval + exn) : services :=
  {| login := fun _ => inl admin0;
     lookup_user := fun _ username =>
       if String.eqb username "kid" then inl {| user_id := 7 |}
       else inr (ServiceError "user not found");
     query := fun _ _ url =>
       if String.eqb url "https://plex.tv/api/home/users/7/switch" then inl (Some "t-kid")
       else inr (ServiceError "not found");
     token_login := fun _ t => account_of_token t;
     connect := fun _ _ _ => inl tt;
     section := fun _ _ _ => inl tt;
     search_episodes := fun _ a library unwatched _ => inl (found a library unwatched);
     episode_call := fun _ _ _ _ _ => inl tt;
     http := fun _ m url _ => web m url |}.

Definition apikey_reply : pyval := PDict [("apikey", PStr "k")].

Definition ep (n : string) (file : string) : episode := {| title := n; parts := [file] |}.

(** the answer of a suffix query: one file with its watched state and, per
    series that claims it, the IDs of its episodes *)
Definition file_reply (watched : pyval) (groups : list (list Z)) : pyval :=
  PList [PDict [("Watched", watched);
                ("SeriesIDs",
                 PList (map (fun ids =>
                   PDict [("EpisodeIDs", PList (map (fun i => PDict [("ID", PInt i)]) ids))])
                   groups))]].

(** Shoko answering the suffix query for [S01E01.mkv] with a file that two
    series claim, and every other suffix query with no file *)
Definition two_series_web (m : http_method) (url : string) : pyval + exn :=
  match m with
  | POST => inl apikey_reply
  | GET =>
      if is_substring "S01E01.mkv" url
      then inl (file_reply PNone [[11%Z]; [22%Z]])
      else inl (PList [])
  end.

(** Shoko not answering the suffix query for [S01E02.mkv] *)
Definition flaky_web (m : http_method) (url : string) : pyval + exn :=
  match m with
  | POST => inl apikey_reply
  | GET =>
      if is_substring "S01E02.mkv" url then inr (ServiceError "connection reset")
      else inl (file_reply PNone [[11%Z]])
  end.

(** Shoko knowing [S01E01.mkv] and [S01E03.mkv] but not [S01E02.mkv] *)
Definition gap_resp (url : string) : pyval :=
  if is_substring "S01E02.mkv" url then PList []
  else if is_substring "S01E01.mkv" url then file_reply PNone [[11%Z]]
  else file_reply PNone [[33%Z]].

Definition gap_web (m : http_method) (url : string) : pyval + exn :=
  match m with
  | POST => inl apikey_reply
  | GET => inl (gap_resp url)
  end.

Definition three_episodes (_ : account) (_ : string) (_ : bool) : list episode :=
  [ep "one" "/data/Show/S01E01.mkv"; ep "two" "/data/Show/S01E02.mkv";
   ep "three" "/data/Show/S01E03.mkv"].

(** Shoko's list of watched episodes holding [Show/S01E01.mkv] *)
Definition watched_record : pyval :=
  PDict [("Files",
    PList [PDict [("Locations",
      PList [PDict [("RelativePath", PStr "Show/S01E01.mkv")]])]])].

Definition watched_list_reply : pyval := PDict [("List", PList [watched_record])].

Definition watched_web (m : http_method) (url : string) : pyval + exn :=
  match m with
  | POST => inl apikey_reply
  | GET => inl watched_list_reply
  end.

(** the same installation with the home user [kid] added *)
Definition family_cfg : config :=
  {| plex_token := "t0"; plex_username := "admin"; plex_password := "pw";
     server_name := "home"; library_names := ["Anime"];
     extra_users := Some ["kid"]; sync_admin := true;
     shoko_hostname := "shoko"; shoko_port := "8111";
     shoko_username := "u"; shoko_password := "p" |}.

(** the same installation with an unknown user listed before [kid] *)
Definition mixed_cfg : config :=
  {| plex_token := "t0"; plex_username := "admin"; plex_password := "pw";
     server_name := "home"; library_names := ["Anime"];
     extra_users := Some ["ghost"; "kid"]; sync_admin := true;
     shoko_hostname := "shoko"; shoko_port := "8111";
     shoko_username := "u"; shoko_password := "p" |}.

Definition one_episode (_ : account) (_ : string) (_ : bool) : list episode :=
  [ep "one" "/data/Show/S01E01.mkv"].

(** Shoko answering every suffix query with a file already watched *)
Definition seen_web (m : http_method) (url : string) : pyval + exn :=
  match m with
  | POST => inl apikey_reply
  | GET => inl (file_reply (PStr "2024-05-01T20:15:00") [[11%Z]])
  end.

(** the installation with some of Plex's calls out of order *)
Record faults := {
  no_login : bool;      (* the logins are refused *)
  no_connect : bool;    (* the server is not found *)
  no_section : bool;    (* the library is not found *)
  no_mark : bool        (* episode calls fail *)
}.

Definition fails_if {A} (b : bool) (what : string) (answer : A + exn) : A + exn :=
  if b then inr (ServiceError what) else answer.

Definition faulty_services (f : faults)
    (found : account -> string -> bool -> list episode)
    (web : http_method -> string -> pyval + exn) : services :=
  let svc := demo_services found web in
  {| login := fun h => fails_if (no_login f) "unauthorized" (login svc h);
     lookup_user := lookup_user svc;
     query := query svc;
     token_login := fun h t => fails_if (no_login f) "unauthorized" (token_login svc h t);
     connect := fun h a s => fails_if (no_connect f) "no such server" (connect svc h a s);
     section := fun h a l => fails_if (no_section f) "no such library" (section svc h a l);
     search_episodes := search_episodes svc;
     episode_call := fun h a l e m => fails_if (no_mark f) "timed out" (episode_call svc h a l e m);
     http := http svc |}.

Definition no_faults : faults :=
  {| no_login := false; no_connect := false; no_section := false; no_mark := false |}.

(** Shoko answering its authentication with [reply] *)
Definition auth_web (reply : pyval + exn) (m : http_method) (url : string) : pyval + exn :=
  match m with
  | POST => reply
  | GET => inl (PList [])
  end.

(** a roster that answers for every name: [kid] is user 7, anyone else
    user 8, whose switch yields no token *)
Definition roster_user (username : string) : plex_user :=
  if String.eqb username "kid" then {| user_id := 7 |} else {| user_id := 8 |}.

Definition roster_token (user : plex_user) : option string :=
  if String.eqb (switch_url user) "https://plex.tv/api/home/users/7/switch"
  then Some "t-kid" else None.

Definition roster_services : services :=
  let svc := demo_services three_episodes watched_web in
  {| login := login svc;
     lookup_user := fun _ username => inl (roster_user username);
     query := fun _ _ url =>
       inl (if String.eqb url "https://plex.tv/api/home/users/7/switch"
            then Some "t-kid" else None);
     token_login := token_login svc;
     connect := connect svc;
     section := section svc;
     search_episodes := search_episodes svc;
     episode_call := episode_call svc;
     http := http svc |}.

(** the installation with [kid] listed before an unknown user *)
Definition kid_first_cfg : config :=
  {| plex_token := "t0"; plex_username := "admin"; plex_password := "pw";
     server_name := "home"; library_names := ["Anime"];
     extra_users := Some ["kid"; "ghost"]; sync_admin := true;
     shoko_hostname := "shoko"; shoko_port := "8111";
     shoko_username := "u"; shoko_password := "p" |}.

(** a watched episode that has no file, after one that has *)
Definition fileless_record : pyval := PDict [("Files", PList [])].

Definition fileless_web (m : http_method) (url : string) : pyval + exn :=
  match m with
  | POST => inl apikey_reply
  | GET => inl (PDict [("List", PList [watched_record; fileless_record])])
  end.

(** the installation with the administrator left out and nobody added *)
Definition idle_cfg : config :=
  {| plex_token := "t0"; plex_username := "admin"; plex_password := "pw";
     server_name := "home"; library_names := ["Anime"];
     extra_users := Some []; sync_admin := false;
     shoko_hostname := "shoko"; shoko_port := "8111";
     shoko_username := "u"; shoko_password := "p" |}.

(** ** Vocabulary of the statements *)

(** every event [m] adds to the trace satisfies [P] *)
Definition only {A} (P : event -> Prop) (m : M A) : Prop :=
  forall st, exists evs, trace (snd (m st)) = (trace st ++ evs)%list /\ Forall P evs.

(** the argument passes [arg_parse] *)
Definition accepted (arg : string) : Prop := exists v, arg_parse arg = Ret v.

(** console traffic and calls that read from a service *)
Definition is_query (e : event) : bool :=
  match e with
  | Print _ | Input _ | PlexConnect _ _ | PlexSection _ _ | PlexSearch _ _ _ _
  | Http GET _ _ => true
  | _ => false
  end.

(** calls that open a session: logins, the roster lookup, the account
    switch and Shoko's authentication *)
Definition is_session (cfg : config) (e : event) : Prop :=
  match e with
  | PlexLogin _ _ | PlexUser _ | PlexTokenLogin _ => True
  | PlexQuery POST url => exists user, url = switch_url user
  | Http POST url (Some body) => url = auth_url cfg /\ body = auth_body cfg
  | _ => False
  end.

(** calls that set a watched flag: [markPlayed] on an episode (import
    mode) and a POST to [Episode/{ID}/Watched/true] (export mode) *)
Definition sets_watched (cfg : config) (shoko_import : bool) (e : event) : Prop :=
  match e with
  | PlexEpisodeCall _ _ _ method => shoko_import = true /\ method = "markPlayed"
  | Http POST url None =>
      shoko_import = false /\ exists id key, url = watched_true_url cfg id key
  | _ => False
  end.

(** the answers the prompt takes *)
Definition is_yes (answer : string) : bool := String.eqb (lower answer) "y".
Definition is_no (answer : string) : bool := String.eqb (lower answer) "n".

(** what the console shows while the lines [bad] are refused *)
Definition reprompts (a : account) (bad : list string) : list event :=
  flat_map (fun _ => [Input a; Print PleaseEnterYN]) bad.

(** the identity a Plex call is made for *)
Definition event_account (e : event) : option account :=
  match e with
  | PlexConnect a _ | PlexSection a _ | PlexSearch a _ _ _ | PlexEpisodeCall a _ _ _ => Some a
  | _ => None
  end.

(** [m] leaves the list [accounts] alone and does not exit *)
Definition quiet {A} (m : M A) : Prop :=
  forall st, accounts (snd (m st)) = accounts st /\ forall c, fst (m st) <> Exit c.

(** [accounts] as line 67 leaves it *)
Definition primary (cfg : config) (admin : account) : list account :=
  if sync_admin cfg then [admin] else [].

(** what a location owes the trace: its suffix query, and the failure
    line when the answer holds no file *)
Definition location_owes (fl : flavour) (cfg : config) (key : pyval)
    (resp : string -> pyval) (file : string) (ev : event) : Prop :=
  let url := path_ends_with_url cfg (match_key fl file) (py_str key) in
  ev = Http GET url None \/
  ((exists x, py_index (resp url) 0 = Raise x) /\ ev = Print (FailedMatch (match_key fl file))).

(** [st] with [evs] added to its trace *)
Definition after (st : state) (evs : list event) : state :=
  {| trace := trace st ++ evs; stdin := stdin st; accounts := accounts st |}.

(** the record's first file's first location is [path] *)
Definition first_location (record : pyval) (path : string) : Prop :=
  exists files file0 locations location0,
    py_item record "Files" = Ret files /\ py_index files 0 = Ret file0 /\
    py_item file0 "Locations" = Ret locations /\ py_index locations 0 = Ret location0 /\
    py_item location0 "RelativePath" = Ret (PStr path).



(** the search a mode makes: export asks for watched episodes viewed
    since [relative_date], import for unwatched ones without any window *)
Definition search_shape (shoko_import : bool) (relative_date : string) (e : event) : Prop :=
  match e with
  | PlexSearch _ _ unwatched last_viewed_after =>
      if shoko_import then unwatched = true /\ last_viewed_after = None
      else unwatched = false /\ last_viewed_after = Some relative_date
  | _ => True
  end.

(** an episode call made for an episode one of whose parts is named in
    [watched_episodes] *)
Definition marks_listed (fl : flavour) (watched_episodes : list string) (e : event) : Prop :=
  match e with
  | PlexEpisodeCall _ _ ep _ =>
      exists file, In file (parts ep) /\ In (basename fl file) watched_episodes
  | _ => True
  end.

(** the login of lines 58 to 61 and the answer it gets *)
Definition admin_login (cfg : config) : event :=
  if negb (String.eqb (plex_token cfg) EmptyString)
  then PlexTokenLogin (Some (plex_token cfg))
  else PlexLogin (plex_username cfg) (plex_password cfg).

Definition admin_answer (cfg : config) (svc : services) (h : list event) : account + exn :=
  if negb (String.eqb (plex_token cfg) EmptyString)
  then token_login svc h (Some (plex_token cfg))
  else login svc h.

(** the [status] of an authentication reply is 400 or 401 *)
Definition rejected (reply : list (string * pyval)) : bool :=
  match assoc "status" reply with
  | Some status => py_is_400_or_401 status
  | None => false
  end.

(** the suffix queries of the locations of [episodes], in order *)
Definition queries (fl : flavour) (cfg : config) (key : pyval) (episodes : list episode)
  : list event :=
  flat_map (fun e =>
    map (fun file => Http GET (path_ends_with_url cfg (match_key fl file) (py_str key)) None)
      (parts e)) episodes.

(** [m] leaves the component [proj] of the state as it found it *)
Definition keeps {S A} (proj : state -> S) (m : M A) : Prop :=
  forall st, proj (snd (m st)) = proj st.

(** a confirmation prompt or its reminder *)
Definition is_prompt (e : event) : bool :=
  match e with
  | Input _ => true
  | Print PleaseEnterYN => true
  | _ => false
  end.

(** the closing line is the last event of a trace that ended normally and
    is absent from one that did not *)
Definition closed_by_complete {A} (o : outcome A) (evs : list event) : Prop :=
  match o with
  | Ret _ => exists before, evs = (before ++ [Print Complete])%list /\
                            ~ In (Print Complete) before
  | _ => ~ In (Print Complete) evs
  end.

(** the identities obtained from [tokens], up to the first login that is
    refused *)
Fixpoint granted (answer : option string -> account + exn) (tokens : list (option string))
  : list account :=
  match tokens with
  | [] => []
  | t :: r =>
      match answer t with
      | inl a => a :: granted answer r
      | inr _ => []
      end
  end.

(** the characters a quoted string is made of *)
Definition url_safe (c : ascii) : bool :=
  is_unreserved c || Ascii.eqb c slash || Ascii.eqb c "%".

Definition hex_value (c : ascii) : nat :=
  let n := nat_of_ascii c in
  if (n <? 58)%nat then n - 48 else n - 55.

(** reading a quoted string back: each [%XX] gives the byte it stands for *)
Fixpoint percent_decode (s : string) : string :=
  match s with
  | EmptyString => EmptyString
  | String c r =>
      if Ascii.eqb c "%" then
        match r with
        | String h1 (String h2 r') =>
            String (ascii_of_nat (16 * hex_value h1 + hex_value h2)) (percent_decode r')
        | _ => String c (percent_decode r)
        end
      else String c (percent_decode r)
  end.

(** the suffixes of line 30 *)
Definition units : list string := ["m"; "h"; "d"; "w"; "mon"; "y"].

(** a number as Python writes it: decimal, no sign, no leading zero *)
Definition decimal (n : nat) : string := NilEmpty.string_of_uint (Nat.to_uint n).

(** a number from 1 to 999 and one suffix, possibly with a final newline *)
Definition is_duration (s : string) : Prop :=
  exists n u tail,
    1 <= n <= 999 /\ In u units /\ In tail [EmptyString; String newline EmptyString] /\
    s = decimal n ++ u ++ tail.

(** the digit [d] as a character *)
Definition dg (d : nat) : ascii := ascii_of_nat (48 + d).

(** the argument begins with the prefix character of options *)
Definition option_like (arg : string) : bool :=
  match arg with
  | String c _ => Ascii.eqb c "-"
  | EmptyString => false
  end.

(** argparse takes the argument for a request for help and grants it *)
Definition asks_help (arg : string) : bool :=
  match read_argument arg with
  | HelpOption t => takes_help t
  | _ => false
  end.

(** * Properties *)

(** ** Strings and paths *)

Lemma lower_char_eq (c : ascii) (l : ascii) :
  (97 <= nat_of_ascii l <= 122)%nat ->
  lower_char c = l <-> c = l \/ c = ascii_of_nat (nat_of_ascii l - 32).
Proof.
  intros Hl. unfold lower_char.
  destruct ((65 <=? nat_of_ascii c) && (nat_of_ascii c <=? 90))%nat eqn:E.
  - apply andb_true_iff in E as [E1 E2].
    apply Nat.leb_le in E1, E2. split.
    + intros H. right. subst l. rewrite nat_ascii_embedding by lia.
      replace (nat_of_ascii c + 32 - 32)%nat with (nat_of_ascii c) by lia.
      now rewrite ascii_nat_embedding.
    + intros [H | H].
      * subst c. lia.
      * subst c. rewrite nat_ascii_embedding by lia.
        replace (nat_of_ascii l - 32 + 32)%nat with (nat_of_ascii l) by lia.
        apply ascii_nat_embedding.
  - split; [now left|]. intros [H | H]; [assumption|].
    subst c. rewrite nat_ascii_embedding in E by lia.
    apply andb_false_iff in E as [E | E]; apply Nat.leb_gt in E; lia.
Qed.

Lemma lower_single (s : string) (l : ascii) :
  (97 <= nat_of_ascii l <= 122)%nat ->
  lower s = String l EmptyString <->
  s = String l EmptyString \/ s = String (ascii_of_nat (nat_of_ascii l - 32)) EmptyString.
Proof.
  intros Hl. destruct s as [|c [|c' r]]; cbn [lower].
  - split; [discriminate | intros [H | H]; discriminate].
  - split.
    + intros H. injection H as H. apply (@lower_char_eq c l Hl) in H.
      destruct H; subst; auto.
    + intros H. f_equal. apply (@lower_char_eq c l Hl).
      destruct H as [H | H]; injection H as H; auto.
  - split; [discriminate | intros [H | H]; discriminate].
Qed.

Lemma lower_y (s : string) : lower s = "y" <-> s = "y" \/ s = "Y".
Proof. apply (@lower_single s "y"%char). cbn. lia. Qed.

Lemma lower_n (s : string) : lower s = "n" <-> s = "n" \/ s = "N".
Proof. apply (@lower_single s "n"%char). cbn. lia. Qed.

(** C10: the prompt compares the lower-cased answer: [Y] and [y] go on,
    [N] and [n] skip the identity (the loop is left by [SkipUser]), and any
    other line, the empty one included, is answered by the reminder and a
    new prompt. *)
Theorem confirmation_is_case_insensitive
    (a : account) (answer : string) (rest : list string) (tr : list event) :
  ((answer = "Y" \/ answer = "y") ->
     confirm_lines a (answer :: rest) tr = (Ret tt, rest, (tr ++ [Input a])%list)) /\
  ((answer = "N" \/ answer = "n") ->
     confirm_lines a (answer :: rest) tr = (Raise SkipUser, rest, (tr ++ [Input a])%list)) /\
  (answer <> "Y" -> answer <> "y" -> answer <> "N" -> answer <> "n" ->
     confirm_lines a (answer :: rest) tr =
     confirm_lines a rest (tr ++ [Input a; Print PleaseEnterYN])%list).
Proof.
  cbn [confirm_lines]. repeat split.
  - intros H. assert (E : lower answer = "y") by (apply lower_y; tauto).
    now rewrite E.
  - intros H. assert (E : lower answer = "n") by (apply lower_n; tauto).
    now rewrite E.
  - intros H1 H2 H3 H4.
    destruct (String.eqb_spec (lower answer) "y") as [E | _].
    { apply lower_y in E. tauto. }
    destruct (String.eqb_spec (lower answer) "n") as [E | _].
    { apply lower_n in E. tauto. }
    reflexivity.
Qed.

Lemma confirmation_is_case_insensitive_witness :
  confirm_lines admin0 ["Y"; "x"] [] = (Ret tt, ["x"], [Input admin0]) /\
  confirm_lines admin0 ["N"; "x"] [] = (Raise SkipUser, ["x"], [Input admin0]) /\
  confirm_lines admin0 [EmptyString; "y"] [] =
    (Ret tt, [], [Input admin0; Print PleaseEnterYN; Input admin0]).
Proof.
  split; [|split].
  - apply (proj1 (confirmation_is_case_insensitive admin0 "Y" ["x"] [])).
    left; reflexivity.
  - apply (proj1 (proj2 (confirmation_is_case_insensitive admin0 "N" ["x"] []))).
    left; reflexivity.
  - rewrite (proj2 (proj2 (confirmation_is_case_insensitive admin0 EmptyString ["y"] [])));
      [reflexivity | discriminate | discriminate | discriminate | discriminate].
Defined.

(** ** The command line *)

(** The alternation of line 46 and the bounded repetition of the interface
    description accept the same strings. *)
Lemma digits_refine (pos : nat) (s : string) (k : nat -> string -> bool) :
  re_go (Alt d19 (Alt (Cat d19 d09) (Cat d19 (Cat d09 d09)))) pos s k =
  re_go (Cat d19 (re_upto d09 2)) pos s k.
Proof.
  destruct s as [|c1 s]; [reflexivity|].
  cbn [re_go re_upto d19 d09].
  destruct ((nat_of_ascii "1" <=? nat_of_ascii c1)%nat && (nat_of_ascii c1 <=? nat_of_ascii "9")%nat);
    [|reflexivity].
  destruct s as [|c2 s]; [now rewrite !orb_false_r|].
  destruct ((nat_of_ascii "0" <=? nat_of_ascii c2)%nat && (nat_of_ascii c2 <=? nat_of_ascii "9")%nat);
    [|now rewrite !orb_false_r].
  destruct s as [|c3 s].
  - rewrite !orb_false_r. apply orb_comm.
  - destruct ((nat_of_ascii "0" <=? nat_of_ascii c3)%nat && (nat_of_ascii c3 <=? nat_of_ascii "9")%nat).
    + destruct (k (S pos) _), (k (S (S pos)) _), (k (S (S (S pos))) _); reflexivity.
    + rewrite !orb_false_r. apply orb_comm.
Qed.

Lemma range_re_refines (s : string) : re_match range_re s = re_match spec_range_re s.
Proof.
  unfold re_match, range_re, spec_range_re.
  set (k := fun p t => re_go (Cat re_units Eol) p t (fun _ _ => true)).
  change (re_go (Alt d19 (Alt (Cat d19 d09) (Cat d19 (Cat d09 d09)))) 0 s k =
          re_go (Cat d19 (re_upto d09 2)) 0 s k).
  apply digits_refine.
Qed.

Lemma accepted_iff (arg : string) :
  accepted arg <-> re_match spec_range_re (lower arg) = true \/ lower arg = "import".
Proof.
  unfold accepted, arg_parse. rewrite range_re_refines.
  destruct (re_match spec_range_re (lower arg)); cbn [negb andb].
  - split; eauto.
  - destruct (String.eqb_spec (lower arg) "import") as [E | E]; cbn [negb].
    + split; eauto.
    + split; [intros [v H]; discriminate | intros [H | H]; [discriminate | contradiction]].
Qed.

Lemma read_positional (arg : string) :
  option_like arg = false -> read_argument arg = Positional.
Proof.
  destruct arg as [|c r]; [reflexivity|]. cbn [option_like]. intros H.
  unfold read_argument, parse_optional. cbn [String.eqb]. now rewrite H.
Qed.

Lemma arg_parse_dash (r : string) : arg_parse (String "-" r) = Raise ArgumentTypeError.
Proof. reflexivity. Qed.

Lemma option_like_dash (arg : string) :
  option_like arg = true -> exists r, arg = String "-" r.
Proof.
  destruct arg as [|c r]; [discriminate|]. cbn [option_like]. intros H.
  apply Ascii.eqb_eq in H. subst c. now exists r.
Qed.

Lemma accepted_not_option_like (arg : string) : accepted arg -> option_like arg = false.
Proof.
  intros [v H]. destruct (option_like arg) eqn:E; [|reflexivity].
  apply option_like_dash in E as [r ->]. rewrite arg_parse_dash in H. discriminate.
Qed.

Lemma arg_parse_no_exit (arg : string) (c : Z) : arg_parse arg <> Exit c.
Proof. unfold arg_parse. destruct (_ && _); discriminate. Qed.

Lemma parse_optional_not_separator (arg : string) : parse_optional arg <> Separator.
Proof.
  unfold parse_optional. destruct arg as [|c r]; [discriminate|].
  repeat match goal with
         | |- context [if ?b then _ else _] => destruct b
         | |- context [match ?x with _ => _ end] => destruct x
         end; discriminate.
Qed.

(** What [parse_args] makes of one argument: a lone [--] is as no argument;
    a value [arg_parse] returns goes through; anything else ends the run,
    with the help and status 0 when argparse grants a request for help, with
    the usage message and status 2 otherwise. *)
Lemma parse_args_verdict (arg : string) (st : state) :
  parse_args (Some arg) st =
  if String.eqb arg "--" then (Ret ("999y", false), st)
  else match arg_parse arg with
       | Ret v => (Ret (if String.eqb v "import" then ("999y", true) else (v, false)), st)
       | _ => if asks_help arg then (Exit 0, emit (Print Help) st)
              else (Exit 2, emit (Print Usage) st)
       end.
Proof.
  destruct (String.eqb_spec arg "--") as [-> | Hsep]; [reflexivity|].
  destruct (option_like arg) eqn:Hopt.
  - apply option_like_dash in Hopt as [r ->]. rewrite arg_parse_dash.
    unfold parse_args, asks_help, read_argument.
    destruct (String.eqb_spec (String "-" r) "--") as [E | _]; [contradiction|].
    pose proof (parse_optional_not_separator (String "-" r)) as Hno.
    destruct (parse_optional (String "-" r)) as [| |t| |].
    + contradiction.
    + unfold convert. rewrite arg_parse_dash. reflexivity.
    + destruct (takes_help t); reflexivity.
    + reflexivity.
    + reflexivity.
  - unfold parse_args, asks_help. rewrite (read_positional arg Hopt).
    unfold convert, bind, try_except, lift, print, exit, ret.
    destruct (arg_parse arg) as [v | e | c] eqn:E.
    + destruct (String.eqb v "import"); reflexivity.
    + reflexivity.
    + now apply arg_parse_no_exit in E.
Qed.

Lemma run_refused (fl : flavour) (cfg : config) (svc : services)
    (argv : option string) (lines : list string) (c : Z) (st : state) :
  parse_args argv (initial lines) = (Exit c, st) ->
  run fl cfg svc argv lines = (Exit c, trace st).
Proof.
  intros H.
  assert (E : main fl cfg svc argv (initial lines) = (Exit c, st)).
  { unfold main. unfold bind at 1. now rewrite H. }
  unfold run. now rewrite E.
Qed.

(** C9, as the script has it: the argument is lower-cased before it is
    checked, so it is accepted exactly when its lower-case form matches the
    duration expression or is [import]; no argument means export mode over
    [999y]; [import] means import mode; a refused argument that does not
    begin with [-] ends the run with status 2 after the usage message alone.
    An argument that begins with [-] is read by argparse as an option: [-h]
    and [--help] end the run with status 0 after the help alone, a lone
    [--] is dropped and the run is that of no argument, and any other ends
    the run after one message, with status 0 if it is granted as a request
    for help and status 2 if not.  So the command line goes through exactly
    for an accepted argument and for [--], and no run that stops there has
    called a service. *)
Theorem argument_accepted_up_to_case
    (fl : flavour) (cfg : config) (svc : services) (lines : list string) :
  (forall arg,
     accepted arg <->
     re_match spec_range_re (lower arg) = true \/ lower arg = "import") /\
  (forall st, parse_args None st = (Ret ("999y", false), st)) /\
  (forall arg st, lower arg = "import" ->
     parse_args (Some arg) st = (Ret ("999y", true), st)) /\
  (forall arg, ~ accepted arg -> option_like arg = false ->
     run fl cfg svc (Some arg) lines = (Exit 2, [Print Usage])) /\
  (forall arg, option_like arg = true -> arg <> "--" ->
     run fl cfg svc (Some arg) lines =
     if asks_help arg then (Exit 0, [Print Help]) else (Exit 2, [Print Usage])) /\
  run fl cfg svc (Some "-h") lines = (Exit 0, [Print Help]) /\
  run fl cfg svc (Some "--help") lines = (Exit 0, [Print Help]) /\
  run fl cfg svc (Some "--") lines = run fl cfg svc None lines /\
  (forall arg st,
     (exists v, parse_args (Some arg) st = (Ret v, st)) <-> accepted arg \/ arg = "--").
Proof.
  assert (Hopt : forall arg, option_like arg = true -> arg <> "--" ->
     run fl cfg svc (Some arg) lines =
     if asks_help arg then (Exit 0, [Print Help]) else (Exit 2, [Print Usage])).
  { intros arg H Hsep. pose proof (parse_args_verdict arg (initial lines)) as E.
    destruct (String.eqb_spec arg "--") as [| _]; [contradiction|].
    apply option_like_dash in H as [r ->]. rewrite arg_parse_dash in E.
    destruct (asks_help (String "-" r)); now rewrite (@run_refused fl cfg svc _ _ _ _ E). }
  split; [exact accepted_iff|]. split; [reflexivity|].
  split.
  { intros arg st H. rewrite parse_args_verdict.
    destruct (String.eqb_spec arg "--") as [-> | _]; [discriminate|].
    unfold arg_parse. rewrite H. reflexivity. }
  split.
  { intros arg H Hopt'. pose proof (parse_args_verdict arg (initial lines)) as E.
    destruct (String.eqb_spec arg "--") as [-> | _]; [discriminate|].
    unfold asks_help in E. rewrite (read_positional arg Hopt') in E.
    destruct (arg_parse arg) as [v | e | c] eqn:Ea.
    - exfalso. apply H. now exists v.
    - now rewrite (@run_refused fl cfg svc _ _ _ _ E).
    - now rewrite (@run_refused fl cfg svc _ _ _ _ E). }
  split; [exact Hopt|].
  split; [now apply (Hopt "-h")|]. split; [now apply (Hopt "--help")|].
  split; [reflexivity|].
  intros arg st. rewrite parse_args_verdict. split.
  - intros [v H]. destruct (String.eqb_spec arg "--") as [-> | _]; [now right|].
    left. destruct (arg_parse arg) as [w | e | c] eqn:Ea.
    + now exists w.
    + destruct (asks_help arg); discriminate.
    + destruct (asks_help arg); discriminate.
  - intros [[v H] | ->].
    + destruct (String.eqb_spec arg "--") as [| _]; [eexists; reflexivity|].
      rewrite H. eexists; reflexivity.
    + eexists; reflexivity.
Qed.

Lemma argument_accepted_up_to_case_witness :
  parse_args (Some "Import") (initial []) = (Ret ("999y", true), initial []) /\
  run Posix demo_cfg (demo_services three_episodes gap_web) (Some "2 weeks") [] =
    (Exit 2, [Print Usage]) /\
  run Posix demo_cfg (demo_services three_episodes gap_web) (Some "-2w") [] =
    (Exit 2, [Print Usage]) /\
  run Posix demo_cfg (demo_services three_episodes gap_web) (Some "--he") [] =
    (Exit 0, [Print Help]).
Proof.
  pose proof (argument_accepted_up_to_case
                Posix demo_cfg (demo_services three_episodes gap_web) [])
    as (_ & _ & Himport & Hrefused & Hoption & _).
  split; [|split; [|split]].
  - apply Himport. reflexivity.
  - apply Hrefused; [|reflexivity].
    intros [v H]. vm_compute in H. discriminate.
  - apply (Hoption "-2w"); [reflexivity | discriminate].
  - apply (Hoption "--he"); [reflexivity | discriminate].
Defined.

(** C9 as it is written fails on upper-case letters: [2W] does not match
    the expression and is not the token [import], yet it is accepted (as
    [2w]). *)
Lemma upper_case_argument_accepted :
  re_match spec_range_re "2W" = false /\ "2W" <> "import" /\
  parse_args (Some "2W") (initial []) = (Ret ("2w", false), initial []).
Proof. split; [reflexivity|]. split; [discriminate | reflexivity]. Qed.

(** ** The match key *)

Lemma after_last_suffix (p : ascii -> bool) (s : string) :
  exists pre, s = pre ++ after_last p s.
Proof.
  induction s as [|c r [pre IH]]; [now exists EmptyString|].
  cbn [after_last]. destruct (contains_char p r).
  - exists (String c pre). cbn. now rewrite <- IH.
  - destruct (p c); [now exists (String c EmptyString) | now exists EmptyString].
Qed.

Lemma after_last_no_sep (p : ascii -> bool) (s : string) :
  contains_char p (after_last p s) = false.
Proof.
  induction s as [|c r IH]; [reflexivity|].
  cbn [after_last]. destruct (contains_char p r) eqn:E; [assumption|].
  destruct (p c) eqn:Ec; [assumption|]. cbn. now rewrite Ec, E.
Qed.

Lemma substring_all (s : string) : substring 0 (String.length s) s = s.
Proof. induction s; cbn; congruence. Qed.

Lemma substring_split (n : nat) (s : string) :
  substring 0 n s ++ substring n (String.length s - n) s = s.
Proof.
  revert n. induction s as [|c r IH]; intros [|n]; cbn [substring String.length Nat.sub append];
    try reflexivity.
  - now rewrite substring_all.
  - now rewrite IH.
Qed.

Lemma nt_splitdrive_split (p : string) :
  fst (nt_splitdrive p) ++ snd (nt_splitdrive p) = p.
Proof.
  unfold nt_splitdrive.
  repeat match goal with
         | |- context [if ?b then _ else _] => destruct b
         | |- context [match ?o with Some _ => _ | None => _ end] => destruct o
         end; cbn [fst snd]; auto using substring_split.
  clear. induction p; cbn; congruence.
Qed.

Lemma append_assoc (a b c : string) : (a ++ b) ++ c = a ++ (b ++ c).
Proof. induction a; cbn; congruence. Qed.

Lemma basename_suffix (fl : flavour) (file : string) :
  exists dir, file = dir ++ basename fl file.
Proof.
  destruct fl; cbn [basename]; [apply after_last_suffix|].
  destruct (after_last_suffix (is_sep Nt) (snd (nt_splitdrive file))) as [pre H].
  exists (fst (nt_splitdrive file) ++ pre).
  rewrite append_assoc, <- H. symmetry. apply nt_splitdrive_split.
Qed.

Lemma map_string_append (f : ascii -> ascii) (a b : string) :
  map_string f (a ++ b) = map_string f a ++ map_string f b.
Proof. induction a; cbn; congruence. Qed.

Lemma is_suffix_append (pre k : string) : is_suffix k (pre ++ k) = true.
Proof.
  induction pre as [|c pre IH]; cbn.
  - destruct k; cbn; [reflexivity|]. now rewrite Ascii.eqb_refl, String.eqb_refl.
  - rewrite IH. apply orb_true_r.
Qed.

(** C7: the key is one separator followed by the final component of the
    path (a suffix of the path that holds no separator), and the suffix
    query answers for every stored path made of any root, a separator of
    either platform and that same file name; so [D:\anime\Show\S01E01.mkv]
    gives the key [\S01E01.mkv], which matches
    [/mnt/media/Show/S01E01.mkv]. *)
Theorem match_key_correlates (fl fl' : flavour) (file root : string) :
  match_key fl file = String (sep fl) (basename fl file) /\
  contains_char (is_sep fl) (basename fl file) = false /\
  (exists dir, file = dir ++ basename fl file) /\
  path_ends_with (root ++ String (sep fl') (basename fl file)) (match_key fl file) = true /\
  match_key Nt "D:\anime\Show\S01E01.mkv" = "\S01E01.mkv" /\
  path_ends_with "/mnt/media/Show/S01E01.mkv"
    (match_key Nt "D:\anime\Show\S01E01.mkv") = true.
Proof.
  split; [reflexivity|]. split.
  { destruct fl; cbn [basename]; apply after_last_no_sep. }
  split; [apply basename_suffix|]. split; [|split; reflexivity].
  unfold path_ends_with, unify_seps, match_key.
  rewrite map_string_append. cbn [map_string].
  replace (if Ascii.eqb (sep fl') backslash then slash else sep fl') with slash
    by (destruct fl'; reflexivity).
  replace (if Ascii.eqb (sep fl) backslash then slash else sep fl) with slash
    by (destruct fl; reflexivity).
  apply is_suffix_append.
Qed.

(** The final component is the one [os.path] sees on the platform the
    script runs on: on POSIX a Windows path has no separator at all. *)
Example basename_posix : basename Posix "/mnt/media/Show/S01E01.mkv" = "S01E01.mkv".
Proof. reflexivity. Qed.

Example basename_nt : basename Nt "D:\anime\Show\S01E01.mkv" = "S01E01.mkv".
Proof. reflexivity. Qed.

Example basename_posix_of_nt_path :
  basename Posix "D:\anime\Show\S01E01.mkv" = "D:\anime\Show\S01E01.mkv".
Proof. reflexivity. Qed.

Example basename_nt_unc : basename Nt "\\host\share\dir\a.mkv" = "a.mkv".
Proof. reflexivity. Qed.

Example basename_nt_drive_only : basename Nt "D:a.mkv" = "a.mkv".
Proof. reflexivity. Qed.

Example quote_key : quote "\S01 E01.mkv" = "%5CS01%20E01.mkv".
Proof. reflexivity. Qed.

Example help_granted :
  map asks_help ["-h"; "--help"; "--h"; "--hel"; "-hh"; "-h=h"] =
  [true; true; true; true; true; true].
Proof. reflexivity. Qed.

Example help_not_granted :
  map asks_help ["-hx"; "-h="; "--help=x"; "--helpx"; "-x"; "-5"; "- x"; "-"; "h"] =
  [false; false; false; false; false; false; false; false; false].
Proof. reflexivity. Qed.

Example readings :
  map read_argument ["--"; "-"; "-5"; "-.5"; "-5d"; "- x"; "--x"; "3d"] =
  [Separator; Positional; Positional; Positional; UnknownOption; Positional;
   UnknownOption; Positional].
Proof. reflexivity. Qed.

Example arg_parse_bad : arg_parse "1000d" = Raise ArgumentTypeError.
Proof. reflexivity. Qed.

(** ** What a computation may add to the trace *)

Lemma only_weaken {A} (P Q : event -> Prop) (m : M A) :
  (forall e, P e -> Q e) -> only P m -> only Q m.
Proof.
  intros H Hm st. destruct (Hm st) as [evs [E F]]. exists evs. split; [assumption|].
  eapply Forall_impl; eauto.
Qed.

Lemma only_silent {A} (P : event -> Prop) (m : M A) :
  (forall st, trace (snd (m st)) = trace st) -> only P m.
Proof. intros H st. exists []. rewrite H, app_nil_r. auto. Qed.

Lemma only_ret {A} P (a : A) : only P (ret a).
Proof. now apply only_silent. Qed.

Lemma only_lift {A} P (o : outcome A) : only P (lift o).
Proof. now apply only_silent. Qed.

Lemma only_raise {A} P (e : exn) : only P (@raise A e).
Proof. now apply only_silent. Qed.

Lemma only_exit {A} P (c : Z) : only P (@exit A c).
Proof. now apply only_silent. Qed.

Lemma only_get_accounts P : only P get_accounts.
Proof. now apply only_silent. Qed.

Lemma only_set_accounts P l : only P (set_accounts l).
Proof. now apply only_silent. Qed.

Lemma only_append_account P a : only P (append_account a).
Proof. now apply only_silent. Qed.

Lemma only_print (P : event -> Prop) (m : msg) : P (Print m) -> only P (print m).
Proof. intros H st. exists [Print m]. cbn. auto. Qed.

Lemma only_perform {A} (P : event -> Prop) (e : event) (answer : list event -> A + exn) :
  P e -> only P (perform e answer).
Proof.
  intros H st. exists [e]. unfold perform.
  destruct (answer (trace st)); cbn; auto.
Qed.

Lemma only_bind {A B} P (m : M A) (f : A -> M B) :
  only P m -> (forall a, only P (f a)) -> only P (bind m f).
Proof.
  intros Hm Hf st. unfold bind. destruct (Hm st) as [evs [E F]].
  destruct (m st) as [[a | e | c] st1]; cbn [snd] in E; try (exists evs; now split).
  destruct (Hf a st1) as [evs' [E' F']]. exists (evs ++ evs')%list.
  rewrite E', E, app_assoc. split; [reflexivity | now apply Forall_app].
Qed.

Lemma only_try_except {A} P (m : M A) (h : exn -> M A) :
  only P m -> (forall e, only P (h e)) -> only P (try_except m h).
Proof.
  intros Hm Hh st. unfold try_except. destruct (Hm st) as [evs [E F]].
  destruct (m st) as [[a | e | c] st1]; cbn [snd] in E; try (exists evs; now split).
  destruct (Hh e st1) as [evs' [E' F']]. exists (evs ++ evs')%list.
  rewrite E', E, app_assoc. split; [reflexivity | now apply Forall_app].
Qed.

Lemma only_except_skip_user {A} P (m h : M A) :
  only P m -> only P h -> only P (except_skip_user m h).
Proof.
  intros Hm Hh st. unfold except_skip_user. destruct (Hm st) as [evs [E F]].
  destruct (m st) as [[a | e | c] st1]; cbn [snd] in E; try (exists evs; now split).
  destruct e; try (exists evs; now split).
  destruct (Hh st1) as [evs' [E' F']]. exists (evs ++ evs')%list.
  rewrite E', E, app_assoc. split; [reflexivity | now apply Forall_app].
Qed.

Lemma only_for_each {A} P (l : list A) (body : A -> M unit) :
  (forall x, only P (body x)) -> only P (for_each l body).
Proof.
  intros H. induction l as [|x l IH]; cbn [for_each].
  - apply only_ret.
  - apply only_bind; auto.
Qed.

Lemma only_comprehension {A B} P (l : list A) (f : A -> M B) :
  (forall x, only P (f x)) -> only P (comprehension l f).
Proof.
  intros H. induction l as [|x l IH]; cbn [comprehension].
  - apply only_ret.
  - apply only_bind; auto. intros y. apply only_bind; auto. intros ys. apply only_ret.
Qed.

Lemma confirm_lines_trace P (a : account) (lines : list string) (tr : list event) :
  P (Input a) -> P (Print PleaseEnterYN) ->
  exists evs, snd (confirm_lines a lines tr) = (tr ++ evs)%list /\ Forall P evs.
Proof.
  intros Hi Hp. revert tr. induction lines as [|l lines IH]; intros tr; cbn [confirm_lines].
  - exists [Input a]. auto.
  - destruct (String.eqb (lower l) "y"); [exists [Input a]; auto|].
    destruct (String.eqb (lower l) "n"); [exists [Input a]; auto|].
    destruct (IH (tr ++ [Input a; Print PleaseEnterYN])%list) as [evs [E F]].
    exists ([Input a; Print PleaseEnterYN] ++ evs)%list.
    rewrite E, <- app_assoc. split; [reflexivity|]. apply Forall_app. auto.
Qed.

Lemma only_confirm (P : event -> Prop) (a : account) :
  P (Input a) -> P (Print PleaseEnterYN) -> only P (confirm a).
Proof.
  intros Hi Hp st. unfold confirm.
  destruct (confirm_lines_trace P a (stdin st) (trace st) Hi Hp) as [evs [E F]].
  exists evs. destruct (confirm_lines a (stdin st) (trace st)) as [[o r] t].
  cbn in *. auto.
Qed.

(** *** Running a computation step by step *)

Lemma bind_ret {A B} (m : M A) (f : A -> M B) st a st1 :
  m st = (Ret a, st1) -> bind m f st = f a st1.
Proof. intros E. unfold bind. now rewrite E. Qed.

Lemma bind_raise {A B} (m : M A) (f : A -> M B) st e st1 :
  m st = (Raise e, st1) -> bind m f st = (Raise e, st1).
Proof. intros E. unfold bind. now rewrite E. Qed.

Lemma bind_exit {A B} (m : M A) (f : A -> M B) st c st1 :
  m st = (Exit c, st1) -> bind m f st = (Exit c, st1).
Proof. intros E. unfold bind. now rewrite E. Qed.

Lemma try_ret {A} (m : M A) (h : exn -> M A) st a st1 :
  m st = (Ret a, st1) -> try_except m h st = (Ret a, st1).
Proof. intros E. unfold try_except. now rewrite E. Qed.

Lemma try_raise {A} (m : M A) (h : exn -> M A) st e st1 :
  m st = (Raise e, st1) -> try_except m h st = h e st1.
Proof. intros E. unfold try_except. now rewrite E. Qed.

Lemma try_exit {A} (m : M A) (h : exn -> M A) st c st1 :
  m st = (Exit c, st1) -> try_except m h st = (Exit c, st1).
Proof. intros E. unfold try_except. now rewrite E. Qed.

Lemma perform_ok {A} (e : event) (answer : list event -> A + exn) st a :
  answer (trace st) = inl a -> perform e answer st = (Ret a, emit e st).
Proof. intros E. unfold perform. now rewrite E. Qed.

Lemma perform_fails {A} (e : event) (answer : list event -> A + exn) st x :
  answer (trace st) = inr x -> perform e answer st = (Raise x, emit e st).
Proof. intros E. unfold perform. now rewrite E. Qed.

Arguments bind_ret {A B m f st a st1} _.
Arguments bind_raise {A B m f st e st1} _.
Arguments bind_exit {A B m f st c st1} _.
Arguments try_ret {A m h st a st1} _.
Arguments try_raise {A m h st e st1} _.
Arguments try_exit {A m h st c st1} _.
Arguments perform_ok {A e answer st a} _.
Arguments perform_fails {A e answer st x} _.

Ltac only_step :=
  match goal with
  | |- only _ (bind _ _) => apply only_bind; [|intros ?]
  | |- only _ (ret _) => apply only_ret
  | |- only _ (lift _) => apply only_lift
  | |- only _ (raise _) => apply only_raise
  | |- only _ (exit _) => apply only_exit
  | |- only _ (print _) => apply only_print
  | |- only _ (perform _ _) => apply only_perform
  | |- only _ (try_except _ _) => apply only_try_except; [|intros ?]
  | |- only _ (except_skip_user _ _) => apply only_except_skip_user
  | |- only _ (for_each _ _) => apply only_for_each; intros ?
  | |- only _ (comprehension _ _) => apply only_comprehension; intros ?
  | |- only _ (confirm _) => apply only_confirm
  | |- only _ get_accounts => apply only_get_accounts
  | |- only _ (set_accounts _) => apply only_set_accounts
  | |- only _ (append_account _) => apply only_append_account
  | |- only _ (if ?b then _ else _) => destruct b
  | |- only _ (match ?x with _ => _ end) => destruct x
  end.

(** ** Watched flags are only ever set *)

Ltac unfold_script :=
  unfold engine, shoko_auth, resolve_accounts, plex_admin, parse_args, convert,
    sync_account, sync_libraries, sync_library, import_episodes, export_episodes,
    import_part, export_part, relay, mark_watched, generate_watched_episodes,
    watched_filename, apikey, requests_get, requests_post.

Lemma engine_only (fl : flavour) (cfg : config) (svc : services)
    (shoko_import : bool) (relative_date : string) (auth : pyval) :
  only (fun e => is_query e = true \/ sets_watched cfg shoko_import e)
    (engine fl cfg svc shoko_import relative_date auth).
Proof.
  unfold_script.
  repeat only_step;
    try (left; reflexivity);
    try (right; cbn; split; [reflexivity | eauto]).
Qed.

Lemma main_only (fl : flavour) (cfg : config) (svc : services) (argv : option string) :
  only (fun e => is_query e = true \/ is_session cfg e \/
                 exists shoko_import, sets_watched cfg shoko_import e)
    (main fl cfg svc argv).
Proof.
  unfold main. apply only_bind; [|intros args; apply only_bind; [|intros admin]].
  - unfold_script. repeat only_step; left; reflexivity.
  - unfold_script. repeat only_step; try (left; reflexivity); right; left; exact I.
  - apply only_bind; [|intros _; apply only_bind; [|intros auth]].
    + unfold_script.
      repeat only_step; try (left; reflexivity); right; left; cbn; eauto.
    + unfold_script.
      repeat only_step; try (left; reflexivity); right; left; cbn; auto.
    + eapply only_weaken; [|apply engine_only].
      intros e [H | H]; [now left | right; right; eauto].
Qed.

(** C1: whatever the services answer and whatever is typed, every call of
    the engine that is not a read or console traffic sets a watched flag:
    in import mode it is [markPlayed] on a Plex episode, in export mode a
    POST to Shoko's [Episode/{ID}/Watched/true]; over a whole run the only
    other calls are those that open the sessions.  Nothing unsets a flag. *)
Theorem watched_flags_only_set (fl : flavour) (cfg : config) (svc : services) :
  (forall shoko_import relative_date auth st,
     exists evs,
       trace (snd (engine fl cfg svc shoko_import relative_date auth st))
       = (trace st ++ evs)%list /\
       Forall (fun e => is_query e = false -> sets_watched cfg shoko_import e) evs) /\
  (forall argv lines,
     Forall (fun e => is_query e = true \/ is_session cfg e \/
                      exists shoko_import, sets_watched cfg shoko_import e)
       (snd (run fl cfg svc argv lines))).
Proof.
  split.
  - intros imp rd auth st.
    destruct (engine_only fl cfg svc imp rd auth st) as [evs [E F]].
    exists evs. split; [assumption|].
    eapply Forall_impl; [|exact F]. cbn. intros e [H | H] Hq; [congruence | assumption].
  - intros argv lines. unfold run. cbn [snd].
    destruct (main_only fl cfg svc argv (initial lines)) as [evs [E F]].
    rewrite E. assumption.
Qed.

(** ** The confirmation gate *)

Lemma confirm_lines_loop (a : account) (bad : list string) (answer : string)
    (rest : list string) (tr : list event) :
  Forall (fun l => is_yes l = false /\ is_no l = false) bad ->
  is_yes answer = true \/ is_no answer = true ->
  confirm_lines a (bad ++ answer :: rest) tr =
  (if is_yes answer then Ret tt else Raise SkipUser, rest,
   (tr ++ reprompts a bad ++ [Input a])%list).
Proof.
  intros Hbad Hanswer. revert tr.
  induction Hbad as [|l bad [Hy Hn] _ IH]; intros tr; cbn [app confirm_lines reprompts flat_map].
  - unfold is_yes, is_no in Hanswer |- *. destruct (String.eqb (lower answer) "y").
    + reflexivity.
    + destruct Hanswer as [H | H]; [discriminate|]. now rewrite H.
  - unfold is_yes, is_no in Hy, Hn. rewrite Hy, Hn, IH.
    now rewrite <- !app_assoc.
Qed.

Lemma confirm_yes (a : account) (st : state) (answer : string) (rest : list string) :
  stdin st = answer :: rest -> is_yes answer = true ->
  confirm a st =
  (Ret tt, {| trace := trace st ++ [Input a]; stdin := rest; accounts := accounts st |}).
Proof.
  intros E H. unfold confirm. rewrite E. cbn [confirm_lines].
  unfold is_yes in H. now rewrite H.
Qed.

Lemma confirm_no (a : account) (st : state) (answer : string) (rest : list string) :
  stdin st = answer :: rest -> is_no answer = true ->
  confirm a st =
  (Raise SkipUser,
   {| trace := trace st ++ [Input a]; stdin := rest; accounts := accounts st |}).
Proof.
  intros E H. unfold confirm. rewrite E. cbn [confirm_lines].
  unfold is_no in H. rewrite H.
  destruct (String.eqb_spec (lower answer) "y") as [Ey | _]; [|reflexivity].
  rewrite Ey in H. discriminate.
Qed.

Lemma confirm_lines_first (a : account) (lines : list string) (tr : list event) :
  exists evs, snd (confirm_lines a lines tr) = (tr ++ Input a :: evs)%list.
Proof.
  destruct lines as [|l lines]; cbn [confirm_lines]; [now exists []|].
  destruct (String.eqb (lower l) "y"); [now exists []|].
  destruct (String.eqb (lower l) "n"); [now exists []|].
  destruct (confirm_lines_trace (fun _ => True) a lines
              (tr ++ [Input a; Print PleaseEnterYN])%list I I) as [evs [E _]].
  exists (Print PleaseEnterYN :: evs). rewrite E, <- app_assoc. reflexivity.
Qed.

Lemma sync_libraries_about (fl : flavour) (cfg : config) (svc : services)
    (shoko_import : bool) (relative_date : string) (auth : pyval)
    (watched_episodes : list string) (a : account) :
  only (fun e => forall a', event_account e = Some a' -> a' = a)
    (sync_libraries fl cfg svc shoko_import relative_date auth watched_episodes a).
Proof.
  unfold_script. repeat only_step; cbn; intros; congruence.
Qed.

Lemma sync_account_skipped (fl : flavour) (cfg : config) (svc : services)
    (relative_date : string) (auth : pyval) (watched_episodes : list string)
    (a : account) (st : state) (answer : string) (rest : list string) :
  stdin st = answer :: rest -> is_no answer = true ->
  sync_account fl cfg svc true relative_date auth watched_episodes a st =
  (Ret tt, {| trace := trace st ++ [Input a]; stdin := rest; accounts := accounts st |}).
Proof.
  intros E H. unfold sync_account, bind, except_skip_user.
  now rewrite (confirm_no a st E H).
Qed.

Lemma sync_account_confirmed (fl : flavour) (cfg : config) (svc : services)
    (relative_date : string) (auth : pyval) (watched_episodes : list string)
    (a : account) (st : state) (answer : string) (rest : list string) :
  stdin st = answer :: rest -> is_yes answer = true ->
  sync_account fl cfg svc true relative_date auth watched_episodes a st =
  sync_libraries fl cfg svc true relative_date auth watched_episodes a
    {| trace := trace st ++ [Input a]; stdin := rest; accounts := accounts st |}.
Proof.
  intros E H. unfold sync_account, bind, except_skip_user.
  now rewrite (confirm_yes a st E H).
Qed.

(** C4: in import mode an identity's first event is its prompt; the prompt
    is repeated until a line that lower-cases to [y] or [n] is read; on
    [n] the identity is left with nothing but the prompt on the trace (no
    service is called for it); and with the answers [n], [y] for two
    identities every Plex call that follows the two prompts is made for the
    second one. *)
Theorem confirmation_gate (fl : flavour) (cfg : config) (svc : services)
    (relative_date : string) (auth : pyval) (watched_episodes : list string) :
  let sync := sync_account fl cfg svc true relative_date auth watched_episodes in
  (forall a st, exists evs, trace (snd (sync a st)) = (trace st ++ Input a :: evs)%list) /\
  (forall a bad answer rest tr,
     Forall (fun l => is_yes l = false /\ is_no l = false) bad ->
     is_yes answer = true \/ is_no answer = true ->
     confirm_lines a (bad ++ answer :: rest) tr =
     (if is_yes answer then Ret tt else Raise SkipUser, rest,
      (tr ++ reprompts a bad ++ [Input a])%list)) /\
  (forall a st answer rest,
     stdin st = answer :: rest -> is_no answer = true ->
     sync a st =
     (Ret tt, {| trace := trace st ++ [Input a]; stdin := rest; accounts := accounts st |})) /\
  (forall a1 a2 st rest,
     stdin st = "n" :: "y" :: rest ->
     exists evs,
       trace (snd (for_each [a1; a2] sync st))
       = (trace st ++ Input a1 :: Input a2 :: evs)%list /\
       Forall (fun e => forall a, event_account e = Some a -> a = a2) evs).
Proof.
  intros sync. split; [|split; [|split]].
  - intros a st. unfold sync, sync_account, bind, except_skip_user, confirm.
    destruct (confirm_lines_first a (stdin st) (trace st)) as [evs E].
    destruct (confirm_lines a (stdin st) (trace st)) as [[o r] t]. cbn [snd] in E. subst t.
    set (st1 := {| trace := _; stdin := r; accounts := _ |}).
    destruct (sync_libraries_about fl cfg svc true relative_date auth watched_episodes a st1)
      as [evs' [E' _]].
    destruct o as [[] | [] | c]; cbn [ret snd trace]; try (now exists evs).
    exists (evs ++ evs')%list. rewrite E'. unfold st1. cbn [trace].
    now rewrite <- app_assoc.
  - intros a bad answer rest tr. apply confirm_lines_loop.
  - intros a st answer rest. apply sync_account_skipped.
  - intros a1 a2 st rest E. cbn [for_each]. unfold bind at 1.
    unfold sync at 1. rewrite (sync_account_skipped fl cfg svc relative_date auth
      watched_episodes a1 st E eq_refl).
    unfold bind at 1. unfold sync.
    rewrite (@sync_account_confirmed fl cfg svc relative_date auth watched_episodes a2
               {| trace := trace st ++ [Input a1]; stdin := "y" :: rest;
                  accounts := accounts st |} "y" rest eq_refl eq_refl).
    cbn [trace accounts].
    set (st2 := {| trace := _; stdin := rest; accounts := _ |}).
    destruct (sync_libraries_about fl cfg svc true relative_date auth watched_episodes a2 st2)
      as [evs [E2 F]].
    exists evs. split; [|assumption].
    destruct (sync_libraries _ _ _ _ _ _ _ _ st2) as [[[] | e | c] st3];
      cbn [ret snd] in *; rewrite E2; unfold st2; cbn [trace];
      now rewrite <- !app_assoc.
Qed.

Lemma confirmation_gate_witness :
  let st := {| trace := []; stdin := ["n"; "y"]; accounts := [admin0; kid] |} in
  let sync := sync_account Posix family_cfg (demo_services three_episodes watched_web)
                true "999y" apikey_reply ["S01E01.mkv"] in
  sync admin0 st = (Ret tt, {| trace := [Input admin0]; stdin := ["y"];
                               accounts := [admin0; kid] |}) /\
  exists evs,
    trace (snd (for_each [admin0; kid] sync st)) = Input admin0 :: Input kid :: evs /\
    Forall (fun e => forall a, event_account e = Some a -> a = kid) evs.
Proof.
  intros st sync. split.
  - apply (proj1 (proj2 (proj2 (confirmation_gate Posix family_cfg
             (demo_services three_episodes watched_web) "999y" apikey_reply ["S01E01.mkv"])))
           admin0 st "n" ["y"]); reflexivity.
  - apply (proj2 (proj2 (proj2 (confirmation_gate Posix family_cfg
             (demo_services three_episodes watched_web) "999y" apikey_reply ["S01E01.mkv"])))
           admin0 kid st []). reflexivity.
Defined.

(** The run of the specification's scenario: two identities, import mode,
    answers [n] then [y]; [S01E01.mkv] is watched in Shoko. *)
Example import_run_n_y :
  run Posix family_cfg (demo_services three_episodes watched_web) (Some "import") ["n"; "y"] =
  (Ret tt,
   [PlexTokenLogin (Some "t0"); PlexUser "kid";
    PlexQuery POST "https://plex.tv/api/home/users/7/switch";
    PlexTokenLogin (Some "t-kid");
    Http POST "http://shoko:8111/api/auth" (Some (auth_body family_cfg));
    Print Header; Print Generating;
    Http GET (watched_list_url family_cfg "k") None;
    Input admin0;
    Input kid; PlexConnect kid "home";
    Print (Querying kid "home" "Anime"); PlexSection kid "Anime";
    PlexSearch kid "Anime" true None;
    PlexEpisodeCall kid "Anime" (ep "one" "/data/Show/S01E01.mkv") "markPlayed";
    Print (Importing "S01E01.mkv");
    Print Finished; Print Complete]).
Proof. vm_compute. reflexivity. Qed.

(** ** Identity resolution *)

Lemma quiet_perform {A} (e : event) (answer : list event -> A + exn) :
  quiet (perform e answer).
Proof.
  intros st. unfold perform. destruct (answer (trace st)); cbn; split; auto; discriminate.
Qed.

Lemma quiet_comprehension {A B} (l : list A) (f : A -> M B) :
  (forall x, quiet (f x)) -> quiet (comprehension l f).
Proof.
  intros H. induction l as [|x l IH]; intros st; cbn [comprehension].
  - cbn. split; [reflexivity | discriminate].
  - unfold bind. destruct (H x st) as [E N].
    destruct (f x st) as [[y | e | c] st1]; cbn [fst snd] in *.
    + destruct (IH st1) as [E1 N1].
      destruct (comprehension l f st1) as [[ys | e | c] st2]; cbn [fst snd ret] in *;
        (split; [congruence | first [discriminate | assumption]]).
    + split; [assumption | discriminate].
    + now destruct (N c).
Qed.

Lemma comprehension_raises {A B} (l : list A) (f : A -> M B) (x : A) :
  (forall y, quiet (f y)) -> In x l -> (forall st, exists e, fst (f x st) = Raise e) ->
  forall st, exists e, fst (comprehension l f st) = Raise e.
Proof.
  intros Hq Hin Hx. induction l as [|y l IH]; [contradiction|].
  intros st. cbn [comprehension]. unfold bind.
  destruct Hin as [-> | Hin].
  - destruct (Hx st) as [e E]. destruct (f x st) as [o st1]. cbn in E. subst o. now exists e.
  - destruct (Hq y st) as [_ N]. destruct (f y st) as [[b | e | c] st1]; cbn [fst] in *.
    + destruct (IH Hin st1) as [e E].
      destruct (comprehension l f st1) as [o st2]. cbn in E. subst o. now exists e.
    + now exists e.
    + now destruct (N c).
Qed.

Lemma logins_append (svc : services) (data : list (option string)) (st : state) :
  exists o st' extra,
    for_each data
      (fun userID =>
         a <- perform (PlexTokenLogin userID) (fun h => token_login svc h userID) ;;
         append_account a) st = (o, st') /\
    accounts st' = (accounts st ++ extra)%list /\
    trace st' = (trace st ++ map PlexTokenLogin (firstn (S (List.length extra)) data))%list /\
    forall c, o <> Exit c.
Proof.
  revert st. induction data as [|d data IH]; intros st; cbn [for_each].
  - exists (Ret tt), st, []. cbn. rewrite !app_nil_r. repeat split; discriminate.
  - unfold bind, perform, append_account.
    destruct (token_login svc (trace st) d) as [a | e].
    + match goal with |- context [for_each data ?f ?s] =>
        destruct (IH s) as (o & st2 & extra & E & Ea & Et & N) end.
      cbn [accounts trace emit] in Ea, Et.
      exists o, st2, (a :: extra). split; [exact E|].
      rewrite Ea, Et, <- !app_assoc. repeat split. assumption.
    + exists (Raise e), (emit (PlexTokenLogin d) st), []. cbn.
      rewrite !app_nil_r. repeat split; discriminate.
Qed.

(** C5, as the script has it: one [try] encloses the roster lookups, the
    account switches and the logins of all delegated identities.  A failure
    is reported and never ends the run, and the primary identity stays; but
    when the roster lookup of any listed user fails, no delegated identity
    at all is added. *)
Theorem resolution_failure_drops_delegates
    (cfg : config) (svc : services) (admin : account) (st : state) :
  (exists st' extra,
     resolve_accounts cfg svc admin st = (Ret tt, st') /\
     accounts st' = (primary cfg admin ++ extra)%list) /\
  (forall usernames u,
     extra_users cfg = Some usernames -> In u usernames ->
     (forall h, exists e, lookup_user svc h u = inr e) ->
     accounts (snd (resolve_accounts cfg svc admin st)) = primary cfg admin /\
     exists e, In (Print (Failed e)) (trace (snd (resolve_accounts cfg svc admin st)))).
Proof.
  unfold resolve_accounts, primary.
  set (base := if sync_admin cfg then [admin] else []).
  set (lookup := fun username =>
         perform (PlexUser username) (fun h => lookup_user svc h username)).
  set (switch := fun user =>
         perform (PlexQuery POST (switch_url user))
           (fun h => query svc h POST (switch_url user))).
  assert (Hlookup : forall l, quiet (comprehension l lookup)).
  { intros l. apply quiet_comprehension. intros x. apply quiet_perform. }
  assert (Hswitch : forall l, quiet (comprehension l switch)).
  { intros l. apply quiet_comprehension. intros x. apply quiet_perform. }
  set (st0 := {| trace := trace st; stdin := stdin st; accounts := base |}).
  assert (E0 : set_accounts base st = (Ret tt, st0)) by reflexivity.
  rewrite (bind_ret E0).
  split.
  - destruct (extra_users cfg) as [[|u0 us]|];
      try (exists st0, []; cbn; now rewrite app_nil_r).
    destruct (Hlookup (u0 :: us) st0) as [E1 N1].
    destruct (comprehension (u0 :: us) lookup st0) as [[users | e | c] st1] eqn:R1;
      cbn [fst snd] in E1, N1.
    + destruct (Hswitch users st1) as [E2 N2].
      destruct (comprehension users switch st1) as [[data | e | c] st2] eqn:R2;
        cbn [fst snd] in E2, N2.
      * destruct (logins_append svc data st2) as (o & st3 & extra & E & Ea & _ & N).
        assert (R : bind (comprehension (u0 :: us) lookup)
                      (fun users => bind (comprehension users switch)
                         (fun data => for_each data
                            (fun userID =>
                               a <- perform (PlexTokenLogin userID)
                                      (fun h => token_login svc h userID) ;;
                               append_account a))) st0 = (o, st3)).
        { rewrite (bind_ret R1), (bind_ret R2). exact E. }
        destruct o as [[] | e | c].
        -- exists st3, extra. rewrite (try_ret R). split; [reflexivity|].
           rewrite Ea, E2, E1. reflexivity.
        -- eexists _, extra. rewrite (try_raise R). split; [reflexivity|].
           cbn [print emit snd accounts]. rewrite Ea, E2, E1. reflexivity.
        -- now destruct (N c).
      * eexists _, []. erewrite try_raise;
          [|rewrite (bind_ret R1); apply (bind_raise R2)].
        split; [reflexivity|]. cbn [print emit snd accounts].
        rewrite app_nil_r, E2, E1. reflexivity.
      * now destruct (N2 c).
    + eexists _, []. erewrite try_raise; [|apply (bind_raise R1)].
      split; [reflexivity|]. cbn [print emit snd accounts].
      rewrite app_nil_r, E1. reflexivity.
    + now destruct (N1 c).
  - intros usernames u Hcfg Hin Hfail. rewrite Hcfg.
    destruct usernames as [|u0 us]; [contradiction|].
    assert (Hraise : exists e, fst (comprehension (u0 :: us) lookup st0) = Raise e).
    { apply comprehension_raises with (x := u); auto.
      - intros y. apply quiet_perform.
      - intros s. unfold lookup, perform. destruct (Hfail (trace s)) as [e E].
        rewrite E. now exists e. }
    destruct Hraise as [e He].
    destruct (Hlookup (u0 :: us) st0) as [E1 _].
    destruct (comprehension (u0 :: us) lookup st0) as [o st1] eqn:R1.
    cbn [fst snd] in He, E1. subst o.
    erewrite try_raise; [|apply (bind_raise R1)].
    cbn [print emit snd accounts trace]. split; [rewrite E1; reflexivity|].
    exists e. apply in_or_app. right. now left.
Qed.

Lemma resolution_failure_drops_delegates_witness :
  accounts (snd (resolve_accounts mixed_cfg (demo_services three_episodes gap_web)
                   admin0 (initial []))) = [admin0] /\
  exists e, In (Print (Failed e))
              (trace (snd (resolve_accounts mixed_cfg (demo_services three_episodes gap_web)
                             admin0 (initial [])))).
Proof.
  apply (proj2 (resolution_failure_drops_delegates mixed_cfg
                  (demo_services three_episodes gap_web) admin0 (initial []))
           ["ghost"; "kid"] "ghost").
  - reflexivity.
  - left. reflexivity.
  - intros h. eexists. reflexivity.
Defined.

(** C5 as it is written fails: [kid] resolves when listed alone, but listed
    next to a user the roster does not know it is dropped with it, and the
    run never touches its data. *)
Lemma one_unknown_user_drops_all_delegates :
  let svc := demo_services three_episodes gap_web in
  accounts (snd (resolve_accounts family_cfg svc admin0 (initial []))) = [admin0; kid] /\
  accounts (snd (resolve_accounts mixed_cfg svc admin0 (initial []))) = [admin0] /\
  fst (run Posix mixed_cfg svc None []) = Ret tt /\
  Forall (fun e => event_account e <> Some kid) (snd (run Posix mixed_cfg svc None [])).
Proof.
  cbn zeta. split; [reflexivity|]. split; [reflexivity|]. split; [reflexivity|].
  vm_compute. repeat constructor; discriminate.
Qed.

(** ** Export: relaying one file *)

Lemma py_is_none_iff (v : pyval) : py_is_none v = true <-> v = PNone.
Proof. destruct v; cbn; split; congruence. Qed.

Lemma mark_watched_only (cfg : config) (svc : services) (auth : pyval) (ids : list pyval) :
  only (fun _ => True) (for_each ids (mark_watched cfg svc auth)).
Proof. unfold_script. repeat only_step; exact I. Qed.

(** one POST per ID, in order, as long as Shoko answers them *)
Lemma mark_watched_all (cfg : config) (svc : services) (auth key : pyval)
    (dicts ids : list pyval) :
  py_item auth "apikey" = Ret key ->
  (forall h url, exists v, http svc h POST url None = inl v) ->
  Forall2 (fun d id => py_item d "ID" = Ret id) dicts ids ->
  forall st,
    for_each dicts (mark_watched cfg svc auth) st =
    (Ret tt,
     {| trace := trace st ++
                 map (fun id => Http POST (watched_true_url cfg (py_str id) (py_str key)) None) ids;
        stdin := stdin st; accounts := accounts st |}).
Proof.
  intros Hkey Hpost H. induction H as [|d id dicts ids Hd _ IH]; intros st.
  - cbn. rewrite app_nil_r. now destruct st.
  - cbn [for_each map].
    assert (E : mark_watched cfg svc auth d st =
                (Ret tt, emit (Http POST (watched_true_url cfg (py_str id) (py_str key)) None) st)).
    { unfold mark_watched, apikey, requests_post, bind, lift, perform, ret.
      rewrite Hd, Hkey.
      destruct (Hpost (trace st) (watched_true_url cfg (py_str id) (py_str key))) as [v Hv].
      now rewrite Hv. }
    rewrite (bind_ret E), IH. cbn [emit trace stdin accounts].
    now rewrite <- app_assoc.
Qed.

(** C2, as the script has it: when the suffix query for a location answers
    with a first file whose watched state is unknown, and Shoko answers the
    POSTs, the engine marks watched=true, in order, exactly the episode IDs
    of that file's first series grouping ([SeriesIDs][0]); it reads no
    other grouping. *)
Theorem relays_first_series_grouping
    (fl : flavour) (cfg : config) (svc : services) (auth key : pyval)
    (e : episode) (file : string) (st : state)
    (path_ends_with file0 series series0 ids : pyval) (dicts idvals : list pyval) :
  let filepath := match_key fl file in
  py_item auth "apikey" = Ret key ->
  http svc (trace st) GET (path_ends_with_url cfg filepath (py_str key)) None
    = inl path_ends_with ->
  py_index path_ends_with 0 = Ret file0 ->
  py_item file0 "Watched" = Ret PNone ->
  py_item file0 "SeriesIDs" = Ret series ->
  py_index series 0 = Ret series0 ->
  py_item series0 "EpisodeIDs" = Ret ids ->
  py_iter ids = Ret dicts ->
  Forall2 (fun d id => py_item d "ID" = Ret id) dicts idvals ->
  (forall h url, exists v, http svc h POST url None = inl v) ->
  export_part fl cfg svc auth e file st =
  (Ret tt,
   {| trace := trace st ++
        Http GET (path_ends_with_url cfg filepath (py_str key)) None ::
        Print (Relaying filepath (title e)) ::
        map (fun id => Http POST (watched_true_url cfg (py_str id) (py_str key)) None) idvals;
      stdin := stdin st; accounts := accounts st |}).
Proof.
  intros filepath Hkey Hget H0 Hw Hs Hs0 Hids Hiter Hdicts Hpost.
  unfold export_part, apikey, requests_get, relay, try_except, bind, lift, perform, print, ret.
  fold filepath. rewrite Hkey. cbv beta iota. rewrite Hget. cbv beta iota.
  rewrite H0, Hw. cbn [py_is_none]. rewrite Hs, Hs0, Hids, Hiter.
  rewrite (mark_watched_all cfg svc auth Hkey Hpost Hdicts).
  cbn [emit trace stdin accounts]. now rewrite <- !app_assoc.
Qed.

Lemma relays_first_series_grouping_witness :
  export_part Posix demo_cfg (demo_services one_episode two_series_web) apikey_reply
    (ep "one" "/data/Show/S01E01.mkv") "/data/Show/S01E01.mkv" (initial []) =
  (Ret tt,
   {| trace := [Http GET (path_ends_with_url demo_cfg "/S01E01.mkv" "k") None;
                Print (Relaying "/S01E01.mkv" "one");
                Http POST (watched_true_url demo_cfg "11" "k") None];
      stdin := []; accounts := [] |}).
Proof.
  apply (@relays_first_series_grouping Posix demo_cfg
           (demo_services one_episode two_series_web) apikey_reply (PStr "k")
           (ep "one" "/data/Show/S01E01.mkv") "/data/Show/S01E01.mkv" (initial [])
           (file_reply PNone [[11%Z]; [22%Z]])
           (PDict [("Watched", PNone);
                   ("SeriesIDs",
                    PList [PDict [("EpisodeIDs", PList [PDict [("ID", PInt 11)]])];
                           PDict [("EpisodeIDs", PList [PDict [("ID", PInt 22)]])]])])
           (PList [PDict [("EpisodeIDs", PList [PDict [("ID", PInt 11)]])];
                   PDict [("EpisodeIDs", PList [PDict [("ID", PInt 22)]])]])
           (PDict [("EpisodeIDs", PList [PDict [("ID", PInt 11)]])])
           (PList [PDict [("ID", PInt 11)]])
           [PDict [("ID", PInt 11)]] [PInt 11]);
    try reflexivity.
  - repeat constructor.
  - intros h url. eexists. reflexivity.
Defined.

(** C2 as it is written fails when two series claim the file: the suffix
    query answers with the groupings [11] and [22], and only episode 11 is
    marked. *)
Lemma second_series_grouping_not_marked :
  let svc := demo_services one_episode two_series_web in
  let tr := snd (run Posix demo_cfg svc None []) in
  http svc [] GET (path_ends_with_url demo_cfg "/S01E01.mkv" "k") None
    = inl (file_reply PNone [[11%Z]; [22%Z]]) /\
  In (Http GET (path_ends_with_url demo_cfg "/S01E01.mkv" "k") None) tr /\
  In (Http POST (watched_true_url demo_cfg "11" "k") None) tr /\
  ~ In (Http POST (watched_true_url demo_cfg "22" "k") None) tr.
Proof.
  cbn zeta. split; [reflexivity|]. split; [vm_compute; tauto|]. split; [vm_compute; tauto|].
  intros H. vm_compute in H.
  repeat (destruct H as [H | H]; [discriminate|]). exact H.
Qed.

Lemma quiet_ret {A} (a : A) : quiet (ret a).
Proof. intros st. cbn. split; [reflexivity | discriminate]. Qed.

Lemma quiet_lift {A} (o : outcome A) : (forall c, o <> Exit c) -> quiet (lift o).
Proof. intros H st. cbn. auto. Qed.

Lemma quiet_print (m : msg) : quiet (print m).
Proof. intros st. cbn. split; [reflexivity | discriminate]. Qed.

Lemma quiet_bind {A B} (m : M A) (f : A -> M B) :
  quiet m -> (forall a, quiet (f a)) -> quiet (bind m f).
Proof.
  intros Hm Hf st. unfold bind. destruct (Hm st) as [E N].
  destruct (m st) as [[a | e | c] st1]; cbn [fst snd] in *.
  - destruct (Hf a st1) as [E1 N1]. split; [congruence | assumption].
  - split; [assumption | discriminate].
  - now destruct (N c).
Qed.

Lemma quiet_for_each {A} (l : list A) (body : A -> M unit) :
  (forall x, quiet (body x)) -> quiet (for_each l body).
Proof.
  intros H. induction l; cbn [for_each]; [apply quiet_ret | apply quiet_bind; auto].
Qed.

Lemma py_item_no_exit (v : pyval) (k : string) (c : Z) : py_item v k <> Exit c.
Proof. destruct v; cbn; try discriminate. destruct (assoc k kv); discriminate. Qed.

Lemma py_index_no_exit (v : pyval) (i : nat) (c : Z) : py_index v i <> Exit c.
Proof.
  destruct v; cbn; try discriminate.
  - destruct (get i s); discriminate.
  - destruct (nth_error l i); discriminate.
Qed.

Lemma py_iter_no_exit (v : pyval) (c : Z) : py_iter v <> Exit c.
Proof. destruct v; cbn; discriminate. Qed.

Ltac quiet_step :=
  match goal with
  | |- quiet (bind _ _) => apply quiet_bind; [|intros ?]
  | |- quiet (ret _) => apply quiet_ret
  | |- quiet (print _) => apply quiet_print
  | |- quiet (perform _ _) => apply quiet_perform
  | |- quiet (for_each _ _) => apply quiet_for_each; intros ?
  | |- quiet (lift (py_item _ _)) => apply quiet_lift, py_item_no_exit
  | |- quiet (lift (py_index _ _)) => apply quiet_lift, py_index_no_exit
  | |- quiet (lift (py_iter _)) => apply quiet_lift, py_iter_no_exit
  | |- quiet (if ?b then _ else _) => destruct b
  end.

Lemma relay_quiet (cfg : config) (svc : services) (auth : pyval) (e : episode)
    (filepath : string) (path_ends_with : pyval) :
  quiet (relay cfg svc auth e filepath path_ends_with).
Proof. unfold relay, mark_watched, apikey, requests_post. repeat quiet_step. Qed.

(** once the suffix query has answered, a location is always left normally *)
Lemma export_part_returns (fl : flavour) (cfg : config) (svc : services) (auth key : pyval)
    (e : episode) (file : string) (st : state) (path_ends_with : pyval) :
  py_item auth "apikey" = Ret key ->
  http svc (trace st) GET (path_ends_with_url cfg (match_key fl file) (py_str key)) None
    = inl path_ends_with ->
  exists st',
    export_part fl cfg svc auth e file st = (Ret tt, st') /\
    accounts st' = accounts st /\
    exists evs,
      trace st' = (trace st ++
        Http GET (path_ends_with_url cfg (match_key fl file) (py_str key)) None :: evs)%list.
Proof.
  intros Hkey Hget. unfold export_part.
  assert (Ek : apikey auth st = (Ret (py_str key), st)).
  { unfold apikey, bind, lift, ret. now rewrite Hkey. }
  rewrite (bind_ret Ek).
  set (url := path_ends_with_url cfg (match_key fl file) (py_str key)) in *.
  assert (Eg : requests_get svc url st = (Ret path_ends_with, emit (Http GET url None) st)).
  { unfold requests_get. now apply perform_ok. }
  rewrite (bind_ret Eg).
  set (st1 := emit (Http GET url None) st).
  set (m := relay cfg svc auth e (match_key fl file) path_ends_with).
  destruct (relay_quiet cfg svc auth e (match_key fl file) path_ends_with st1) as [Ea N].
  assert (Ho : only (fun _ => True) m).
  { unfold m. unfold_script. repeat only_step; exact I. }
  destruct (Ho st1) as [evs [Et _]].
  fold m in Ea, N. destruct (m st1) as [[[] | x | c] st2] eqn:R; cbn [fst snd] in *.
  - exists st2. rewrite (try_ret R). split; [reflexivity|].
    split; [rewrite Ea; reflexivity|].
    exists evs. rewrite Et. unfold st1. cbn [emit trace]. now rewrite <- app_assoc.
  - eexists. rewrite (try_raise R). cbn [print]. split; [reflexivity|].
    split; [cbn [emit accounts]; rewrite Ea; reflexivity|].
    exists (evs ++ [Print (FailedMatch (match_key fl file))])%list.
    cbn [emit trace]. rewrite Et. unfold st1. cbn [emit trace].
    now rewrite <- !app_assoc.
  - now destruct (N c).
Qed.

Lemma export_part_queried (fl : flavour) (cfg : config) (svc : services) (auth key : pyval)
    (e : episode) (file : string) (st : state) (path_ends_with : pyval) :
  let url := path_ends_with_url cfg (match_key fl file) (py_str key) in
  py_item auth "apikey" = Ret key ->
  http svc (trace st) GET url None = inl path_ends_with ->
  export_part fl cfg svc auth e file st =
  try_except (relay cfg svc auth e (match_key fl file) path_ends_with)
    (fun _ => print (FailedMatch (match_key fl file))) (emit (Http GET url None) st).
Proof.
  intros url Hkey Hget. unfold export_part.
  assert (Ek : apikey auth st = (Ret (py_str key), st)).
  { unfold apikey, bind, lift, ret. now rewrite Hkey. }
  rewrite (bind_ret Ek).
  assert (Eg : requests_get svc url st = (Ret path_ends_with, emit (Http GET url None) st)).
  { unfold requests_get. now apply perform_ok. }
  now rewrite (bind_ret Eg).
Qed.

Lemma mark_watched_posts (cfg : config) (svc : services) (auth key first id : pyval)
    (st : state) :
  py_item auth "apikey" = Ret key -> py_item first "ID" = Ret id ->
  let post := Http POST (watched_true_url cfg (py_str id) (py_str key)) None in
  mark_watched cfg svc auth first st = (Ret tt, emit post st) \/
  exists x, mark_watched cfg svc auth first st = (Raise x, emit post st).
Proof.
  intros Hkey Hid post.
  unfold mark_watched, apikey, requests_post, bind, lift, perform, ret.
  rewrite Hid, Hkey. fold post.
  destruct (http svc (trace st) POST _ None); [left | right; eexists]; reflexivity.
Qed.

(** C3: for a location whose suffix query answers with a matched file (one
    that carries at least one episode ID), a POST is issued if and only if
    the file's watched state is [None]; when it is anything else, [true]
    or [false] included, the location adds nothing to the trace but its
    query; and in either case the location is left normally. *)
Theorem export_writes_iff_unknown
    (fl : flavour) (cfg : config) (svc : services) (auth key : pyval)
    (e : episode) (file : string) (st : state)
    (path_ends_with file0 watched series series0 ids first id : pyval)
    (others : list pyval) :
  let url := path_ends_with_url cfg (match_key fl file) (py_str key) in
  py_item auth "apikey" = Ret key ->
  http svc (trace st) GET url None = inl path_ends_with ->
  py_index path_ends_with 0 = Ret file0 ->
  py_item file0 "Watched" = Ret watched ->
  py_item file0 "SeriesIDs" = Ret series ->
  py_index series 0 = Ret series0 ->
  py_item series0 "EpisodeIDs" = Ret ids ->
  py_iter ids = Ret (first :: others) ->
  py_item first "ID" = Ret id ->
  let r := export_part fl cfg svc auth e file st in
  fst r = Ret tt /\
  exists evs,
    trace (snd r) = (trace st ++ Http GET url None :: evs)%list /\
    ((exists u json, In (Http POST u json) evs) <-> watched = PNone) /\
    (watched <> PNone -> evs = []).
Proof.
  intros url Hkey Hget H0 Hw Hs Hs0 Hids Hiter Hid r.
  split.
  { destruct (@export_part_returns fl cfg svc auth key e file st path_ends_with Hkey Hget)
      as (st' & E & _).
    unfold r. now rewrite E. }
  unfold r. rewrite (@export_part_queried fl cfg svc auth key e file st path_ends_with Hkey Hget).
  fold url.
  set (st1 := emit (Http GET url None) st).
  destruct (py_is_none watched) eqn:Hnone.
  - apply py_is_none_iff in Hnone. subst watched.
    set (post := Http POST (watched_true_url cfg (py_str id) (py_str key)) None).
    set (relaying := Print (Relaying (match_key fl file) (title e))).
    enough (exists more, trace (snd (try_except
              (relay cfg svc auth e (match_key fl file) path_ends_with)
              (fun _ => print (FailedMatch (match_key fl file))) st1))
            = (trace st1 ++ relaying :: post :: more)%list) as [more E].
    { exists (relaying :: post :: more). rewrite E. unfold st1. cbn [emit trace].
      rewrite <- app_assoc. split; [reflexivity|]. split.
      - split; [reflexivity|]. intros _. exists (watched_true_url cfg (py_str id) (py_str key)), None.
        right. now left.
      - intros H. now destruct H. }
    unfold try_except, relay, bind at 1 2 3 4 5 6 7 8, lift, print, ret.
    rewrite H0, Hw. cbn [py_is_none]. rewrite Hs, Hs0, Hids, Hiter.
    fold relaying. set (st2 := emit relaying st1). cbn [for_each].
    destruct (@mark_watched_posts cfg svc auth key first id st2 Hkey Hid) as [E | [x E]];
      fold post in E.
    + rewrite (bind_ret E).
      destruct (mark_watched_only cfg svc auth others (emit post st2)) as [more [Em _]].
      destruct (for_each others (mark_watched cfg svc auth) (emit post st2))
        as [[[] | x | c] st3]; cbn [snd] in Em |- *.
      * exists more. rewrite Em. unfold st2. cbn [emit trace]. now rewrite <- !app_assoc.
      * exists (more ++ [Print (FailedMatch (match_key fl file))])%list.
        cbn [emit trace]. rewrite Em. unfold st2. cbn [emit trace].
        now rewrite <- !app_assoc.
      * exists more. rewrite Em. unfold st2. cbn [emit trace]. now rewrite <- !app_assoc.
    + rewrite (bind_raise E).
      exists [Print (FailedMatch (match_key fl file))].
      cbn [emit trace snd]. unfold st2. cbn [emit trace]. now rewrite <- !app_assoc.
  - assert (Hk : watched <> PNone).
    { intros ->. discriminate. }
    exists []. unfold try_except, relay, bind, lift, ret. rewrite H0, Hw, Hnone.
    cbn [snd]. unfold st1. cbn [emit trace]. split; [reflexivity|]. split; [|reflexivity].
    split; [intros (u & j & []) | intros ->; now destruct Hk].
Qed.

Lemma export_writes_iff_unknown_witness :
  let r := export_part Posix demo_cfg (demo_services one_episode seen_web) apikey_reply
             (ep "one" "/data/Show/S01E01.mkv") "/data/Show/S01E01.mkv" (initial []) in
  fst r = Ret tt /\
  exists evs,
    trace (snd r) =
      ([] ++ Http GET (path_ends_with_url demo_cfg "/S01E01.mkv" "k") None :: evs)%list /\
    ((exists u json, In (Http POST u json) evs) <-> PStr "2024-05-01T20:15:00" = PNone) /\
    (PStr "2024-05-01T20:15:00" <> PNone -> evs = []).
Proof.
  apply (@export_writes_iff_unknown Posix demo_cfg (demo_services one_episode seen_web)
           apikey_reply (PStr "k") (ep "one" "/data/Show/S01E01.mkv")
           "/data/Show/S01E01.mkv" (initial [])
           (file_reply (PStr "2024-05-01T20:15:00") [[11%Z]])
           (PDict [("Watched", PStr "2024-05-01T20:15:00");
                   ("SeriesIDs",
                    PList [PDict [("EpisodeIDs", PList [PDict [("ID", PInt 11)]])]])])
           (PStr "2024-05-01T20:15:00")
           (PList [PDict [("EpisodeIDs", PList [PDict [("ID", PInt 11)]])]])
           (PDict [("EpisodeIDs", PList [PDict [("ID", PInt 11)]])])
           (PList [PDict [("ID", PInt 11)]])
           (PDict [("ID", PInt 11)]) (PInt 11) []);
    reflexivity.
Defined.

(** ** Export: one item failing does not stop the loops *)

(** a loop whose body always returns normally returns normally, and keeps
    on the trace what each item [x] owes ([owes x ev]) *)
Lemma for_each_returns {A} (l : list A) (body : A -> M unit) (owes : A -> event -> Prop) :
  (forall x st, exists st',
      body x st = (Ret tt, st') /\
      exists evs, trace st' = (trace st ++ evs)%list /\ forall ev, owes x ev -> In ev evs) ->
  forall st, exists st',
    for_each l body st = (Ret tt, st') /\
    exists evs, trace st' = (trace st ++ evs)%list /\
                forall x ev, In x l -> owes x ev -> In ev evs.
Proof.
  intros H. induction l as [|x l IH]; intros st; cbn [for_each].
  - exists st. split; [reflexivity|]. exists []. rewrite app_nil_r.
    split; [reflexivity|]. intros x ev [].
  - destruct (H x st) as (st1 & E1 & evs1 & T1 & O1).
    destruct (IH st1) as (st2 & E2 & evs2 & T2 & O2).
    exists st2. rewrite (bind_ret E1). split; [assumption|].
    exists (evs1 ++ evs2)%list. rewrite T2, T1, app_assoc. split; [reflexivity|].
    intros y ev [<- | Hy] Hev; apply in_or_app; [left | right]; eauto.
Qed.

Lemma export_part_unmatched (fl : flavour) (cfg : config) (svc : services) (auth key : pyval)
    (e : episode) (file : string) (st : state) (path_ends_with : pyval) (x : exn) :
  let url := path_ends_with_url cfg (match_key fl file) (py_str key) in
  py_item auth "apikey" = Ret key ->
  http svc (trace st) GET url None = inl path_ends_with ->
  py_index path_ends_with 0 = Raise x ->
  export_part fl cfg svc auth e file st =
  (Ret tt, emit (Print (FailedMatch (match_key fl file))) (emit (Http GET url None) st)).
Proof.
  intros url Hkey Hget H0.
  rewrite (@export_part_queried fl cfg svc auth key e file st path_ends_with Hkey Hget).
  unfold try_except, relay, bind, lift. now rewrite H0.
Qed.

Lemma export_part_isolated (fl : flavour) (cfg : config) (svc : services) (auth key : pyval)
    (resp : string -> pyval) (e : episode) :
  py_item auth "apikey" = Ret key ->
  (forall h url, http svc h GET url None = inl (resp url)) ->
  forall file st, exists st',
    export_part fl cfg svc auth e file st = (Ret tt, st') /\
    exists evs, trace st' = (trace st ++ evs)%list /\
                forall ev, location_owes fl cfg key resp file ev -> In ev evs.
Proof.
  intros Hkey Hget file st.
  set (url := path_ends_with_url cfg (match_key fl file) (py_str key)).
  destruct (py_index (resp url) 0) as [file0 | x | c] eqn:H0.
  - destruct (@export_part_returns fl cfg svc auth key e file st (resp url) Hkey (Hget _ _))
      as (st' & E & _ & evs & T).
    exists st'. split; [assumption|]. eexists. split; [exact T|].
    intros ev [-> | [[x Hx] _]]; [now left|]. fold url in Hx. congruence.
  - eexists. split.
    + apply (@export_part_unmatched fl cfg svc auth key e file st (resp url) x Hkey (Hget _ _) H0).
    + exists [Http GET url None; Print (FailedMatch (match_key fl file))].
      cbn [emit trace]. rewrite <- app_assoc. split; [reflexivity|].
      intros ev [-> | [_ ->]]; cbn; auto.
  - now destruct (@py_index_no_exit (resp url) 0 c).
Qed.

Lemma export_episodes_isolated (fl : flavour) (cfg : config) (svc : services)
    (auth key : pyval) (resp : string -> pyval) :
  py_item auth "apikey" = Ret key ->
  (forall h url, http svc h GET url None = inl (resp url)) ->
  forall episodes st, exists st',
    export_episodes fl cfg svc auth episodes st = (Ret tt, st') /\
    exists evs, trace st' = (trace st ++ evs)%list /\
      forall e ev, In e episodes ->
        (exists file, In file (parts e) /\ location_owes fl cfg key resp file ev) ->
        In ev evs.
Proof.
  intros Hkey Hget episodes. unfold export_episodes.
  apply for_each_returns. intros e st.
  destruct (for_each_returns (parts e) (export_part fl cfg svc auth e)
              (location_owes fl cfg key resp)
              (@export_part_isolated fl cfg svc auth key resp e Hkey Hget) st)
    as (st' & E & evs & T & O).
  exists st'. split; [assumption|]. exists evs. split; [assumption|].
  intros ev (file & Hin & Hev). eauto.
Qed.

Lemma sync_library_only (fl : flavour) (cfg : config) (svc : services)
    (shoko_import : bool) (relative_date : string) (auth : pyval)
    (watched_episodes : list string) (a : account) (library : string) :
  only (fun _ => True)
    (sync_library fl cfg svc shoko_import relative_date auth watched_episodes a library).
Proof. unfold_script. repeat only_step; exact I. Qed.

(** C8, as the script has it: when every suffix query is answered, each
    location is left normally whatever the answer holds and whatever
    happens to its POSTs; the record loop returns normally with every
    location's query on the trace, and with the failure line of every
    location whose answer holds no file; and when the searches answer too,
    the library loop of an identity returns normally. *)
Theorem export_isolates_items
    (fl : flavour) (cfg : config) (svc : services) (auth key : pyval)
    (resp : string -> pyval) :
  py_item auth "apikey" = Ret key ->
  (forall h url, http svc h GET url None = inl (resp url)) ->
  (forall episodes st, exists st',
     export_episodes fl cfg svc auth episodes st = (Ret tt, st') /\
     forall e file ev, In e episodes -> In file (parts e) ->
       location_owes fl cfg key resp file ev -> In ev (trace st')) /\
  ((forall h a l u f, exists found, search_episodes svc h a l u f = inl found) ->
   forall relative_date watched_episodes a st,
     fst (for_each (library_names cfg)
            (sync_library fl cfg svc false relative_date auth watched_episodes a) st) = Ret tt).
Proof.
  intros Hkey Hget. split.
  - intros episodes st.
    destruct (@export_episodes_isolated fl cfg svc auth key resp Hkey Hget episodes st)
      as (st' & E & evs & T & O).
    exists st'. split; [assumption|]. intros e file ev He Hf Hev.
    rewrite T. apply in_or_app. right. eauto.
  - intros Hsearch rd w a st.
    destruct (for_each_returns (library_names cfg)
                (sync_library fl cfg svc false rd auth w a) (fun _ _ => False)) with (st := st)
      as (st' & E & _); [|now rewrite E].
    clear st. intros library st.
    destruct (sync_library_only fl cfg svc false rd auth w a library st) as [evs [T _]].
    enough (fst (sync_library fl cfg svc false rd auth w a library st) = Ret tt) as R.
    { destruct (sync_library _ _ _ _ _ _ _ _ _ st) as [o st']. cbn in R, T. subst o.
      exists st'. split; [reflexivity|]. exists evs. split; [assumption | contradiction]. }
    unfold sync_library, bind, try_except, print, perform, ret.
    set (st1 := emit (Print (Querying a (server_name cfg) library)) st).
    destruct (section svc (trace st1) a library) as [[] | x]; [|reflexivity].
    set (st2 := emit (PlexSection a library) st1).
    destruct (Hsearch (trace st2) a library false (Some rd)) as [found Hf]. rewrite Hf.
    destruct (@export_episodes_isolated fl cfg svc auth key resp Hkey Hget found
                (emit (PlexSearch a library false (Some rd)) st2)) as (st3 & E3 & _).
    rewrite E3. reflexivity.
Qed.

Lemma export_isolates_items_witness :
  let svc := demo_services three_episodes gap_web in
  (exists st',
     export_episodes Posix demo_cfg svc apikey_reply (three_episodes admin0 "Anime" false)
       (initial []) = (Ret tt, st') /\
     In (Print (FailedMatch "/S01E02.mkv")) (trace st') /\
     In (Http GET (path_ends_with_url demo_cfg "/S01E03.mkv" "k") None) (trace st')) /\
  fst (for_each (library_names demo_cfg)
         (sync_library Posix demo_cfg svc false "999y" apikey_reply [] admin0) (initial []))
  = Ret tt.
Proof.
  intros svc.
  destruct (@export_isolates_items Posix demo_cfg svc apikey_reply (PStr "k") gap_resp
              eq_refl (fun _ _ => eq_refl)) as [H1 H2].
  split.
  - destruct (H1 (three_episodes admin0 "Anime" false) (initial [])) as (st' & E & O).
    exists st'. split; [exact E|]. split.
    + apply (O (ep "two" "/data/Show/S01E02.mkv") "/data/Show/S01E02.mkv").
      * right. left. reflexivity.
      * left. reflexivity.
      * right. split; [eexists; reflexivity | reflexivity].
    + apply (O (ep "three" "/data/Show/S01E03.mkv") "/data/Show/S01E03.mkv").
      * right. right. left. reflexivity.
      * left. reflexivity.
      * left. reflexivity.
  - apply H2. intros h a l u f. eexists. reflexivity.
Defined.

(** C8 as it is written fails when the suffix query itself fails: line 136
    is outside the [try], so the exception of record 2 ends the run and
    record 3 is never looked at. *)
Lemma failed_query_aborts_run :
  let r := run Posix demo_cfg (demo_services three_episodes flaky_web) None [] in
  fst r = Raise (ServiceError "connection reset") /\
  In (Http GET (path_ends_with_url demo_cfg "/S01E02.mkv" "k") None) (snd r) /\
  ~ In (Http GET (path_ends_with_url demo_cfg "/S01E03.mkv" "k") None) (snd r).
Proof.
  cbn zeta. split; [reflexivity|]. split; [vm_compute; tauto|].
  intros H. vm_compute in H.
  repeat (destruct H as [H | H]; [discriminate|]). exact H.
Qed.

(** The run of the specification's example: record 2 of 3 is unknown to
    Shoko; records 1 and 3 are relayed and the run completes. *)
Example export_run_with_gap :
  run Posix demo_cfg (demo_services three_episodes gap_web) (Some "2w") [] =
  (Ret tt,
   [PlexTokenLogin (Some "t0");
    Http POST "http://shoko:8111/api/auth" (Some (auth_body demo_cfg));
    Print Header;
    PlexConnect admin0 "home";
    Print (Querying admin0 "home" "Anime"); PlexSection admin0 "Anime";
    PlexSearch admin0 "Anime" false (Some "2w");
    Http GET (path_ends_with_url demo_cfg "/S01E01.mkv" "k") None;
    Print (Relaying "/S01E01.mkv" "one");
    Http POST (watched_true_url demo_cfg "11" "k") None;
    Http GET (path_ends_with_url demo_cfg "/S01E02.mkv" "k") None;
    Print (FailedMatch "/S01E02.mkv");
    Http GET (path_ends_with_url demo_cfg "/S01E03.mkv" "k") None;
    Print (Relaying "/S01E03.mkv" "three");
    Http POST (watched_true_url demo_cfg "33" "k") None;
    Print Finished; Print Complete]).
Proof. vm_compute. reflexivity. Qed.

(** ** Import *)

Lemma after_nil (st : state) : after st [] = st.
Proof. unfold after. rewrite app_nil_r. now destruct st. Qed.

Lemma after_after (st : state) (l1 l2 : list event) :
  after (after st l1) l2 = after st (l1 ++ l2).
Proof. unfold after. cbn. now rewrite app_assoc. Qed.






(** * Further properties of the script *)

Ltac run_script :=
  unfold shoko_auth, plex_admin, sync_account, sync_libraries, sync_library,
    requests_post, requests_get, bind, try_except, except_skip_user, perform, print,
    exit, ret, lift.

Ltac same_state :=
  unfold after, emit; cbn [trace stdin accounts]; rewrite <- ?app_assoc; reflexivity.


(** ** The window and the searches *)

(** The relative date only reaches Plex in export mode: there every search
    asks for watched episodes viewed since [relative_date]; in import mode
    every search asks for unwatched episodes and carries no window. *)
Theorem window_only_in_export (fl : flavour) (cfg : config) (svc : services)
    (shoko_import : bool) (relative_date : string) (auth : pyval) (st : state) :
  exists evs,
    trace (snd (engine fl cfg svc shoko_import relative_date auth st))
    = (trace st ++ evs)%list /\
    Forall (search_shape shoko_import relative_date) evs.
Proof.
  assert (H : only (search_shape shoko_import relative_date)
                (engine fl cfg svc shoko_import relative_date auth)).
  { unfold_script. repeat only_step; cbn; auto. }
  exact (H st).
Qed.

Lemma existsb_eqb_In (x : string) (l : list string) :
  existsb (String.eqb x) l = true -> In x l.
Proof.
  intros H. apply existsb_exists in H as [y [Hy E]].
  apply String.eqb_eq in E. now subst.
Qed.

Lemma only_for_each_in {A} P (l : list A) (body : A -> M unit) :
  (forall x, In x l -> only P (body x)) -> only P (for_each l body).
Proof.
  induction l as [|x l IH]; intros H; cbn [for_each].
  - apply only_ret.
  - apply only_bind; [apply H; now left | intros _; apply IH].
    intros y Hy. apply H. now right.
Qed.

(** Import never marks an episode Shoko did not list: whatever the
    services answer, every [markPlayed] of the identity loop is made on an
    episode that has a part whose bare file name is in the watched list. *)
Theorem import_marks_only_listed (fl : flavour) (cfg : config) (svc : services)
    (relative_date : string) (auth : pyval) (watched_episodes : list string)
    (a : account) (st : state) :
  exists evs,
    trace (snd (sync_account fl cfg svc true relative_date auth watched_episodes a st))
    = (trace st ++ evs)%list /\
    Forall (marks_listed fl watched_episodes) evs.
Proof.
  assert (Hpart : forall library e file, In file (parts e) ->
            only (marks_listed fl watched_episodes)
              (import_part fl svc a library watched_episodes e file)).
  { intros library e file Hin. unfold import_part.
    destruct (existsb _ watched_episodes) eqn:E; [|apply only_ret].
    apply only_bind; [apply only_perform | intros _; now apply only_print].
    cbn. exists file. split; [assumption | now apply existsb_eqb_In]. }
  assert (H : only (marks_listed fl watched_episodes)
                (sync_account fl cfg svc true relative_date auth watched_episodes a)).
  { unfold sync_account. apply only_bind.
    - apply only_except_skip_user; repeat only_step; exact I.
    - intros go. destruct go; [|apply only_ret].
      unfold sync_libraries.
      apply only_bind; [repeat only_step; exact I | intros _].
      apply only_for_each. intros library. unfold sync_library.
      apply only_bind; [now apply only_print | intros _].
      apply only_bind; [repeat only_step; exact I | intros found].
      destruct found; [|apply only_ret].
      apply only_bind; [|intros _; now apply only_print].
      apply only_bind; [now apply only_perform | intros episodes].
      unfold import_episodes. apply only_for_each. intros e.
      apply only_for_each_in. intros file Hin. now apply Hpart. }
  exact (H st).
Qed.

(** ** Failures that end the run *)

(** When the Plex login of the administrator fails, the run ends with
    status 1 right after the failure line: no other call is made, to
    Plex or to Shoko. *)
Theorem plex_login_failure_is_fatal (fl : flavour) (cfg : config) (svc : services)
    (argv : option string) (lines : list string) (x : exn) :
  (forall arg, argv = Some arg -> accepted arg) ->
  admin_answer cfg svc [] = inr x ->
  run fl cfg svc argv lines = (Exit 1, [admin_login cfg; Print PlexCredentialsInvalid]).
Proof.
  intros Harg Hlogin. unfold run, main.
  assert (Hp : exists args, parse_args argv (initial lines) = (Ret args, initial lines)).
  { destruct argv as [arg|].
    - destruct (Harg arg eq_refl) as [v Hv]. rewrite parse_args_verdict, Hv.
      destruct (String.eqb arg "--"); eexists; reflexivity.
    - eexists. reflexivity. }
  destruct Hp as [args Hp]. rewrite (bind_ret Hp).
  assert (Ha : plex_admin cfg svc (initial lines) =
               (Exit 1, after (initial lines) [admin_login cfg; Print PlexCredentialsInvalid])).
  { unfold plex_admin, admin_answer, admin_login in *.
    destruct (negb (String.eqb (plex_token cfg) EmptyString)).
    - erewrite try_raise; [|apply perform_fails; exact Hlogin]. reflexivity.
    - erewrite try_raise; [|apply perform_fails; exact Hlogin]. reflexivity. }
  rewrite (bind_exit Ha). reflexivity.
Qed.

Lemma plex_login_failure_is_fatal_witness :
  run Posix demo_cfg
    (faulty_services {| no_login := true; no_connect := false; no_section := false;
                        no_mark := false |} one_episode seen_web)
    (Some "3D") [] =
  (Exit 1, [PlexTokenLogin (Some "t0"); Print PlexCredentialsInvalid]).
Proof.
  apply plex_login_failure_is_fatal with (x := ServiceError "unauthorized").
  - intros arg H. injection H as <-. exists "3d". reflexivity.
  - reflexivity.
Defined.

(** Shoko's authentication: an exception of the request ends the run with
    status 1, and so does a reply whose [status] is 400 or 401; any other
    dictionary is taken as the session, whether or not it holds an API key
    and whatever other status it reports. *)
Theorem shoko_auth_verdict (cfg : config) (svc : services) (st : state) :
  let post := Http POST (auth_url cfg) (Some (auth_body cfg)) in
  (forall x,
     http svc (trace st) POST (auth_url cfg) (Some (auth_body cfg)) = inr x ->
     shoko_auth cfg svc st = (Exit 1, after st [post; Print ShokoUnreachable])) /\
  (forall reply,
     http svc (trace st) POST (auth_url cfg) (Some (auth_body cfg)) = inl (PDict reply) ->
     shoko_auth cfg svc st =
     if rejected reply then (Exit 1, after st [post; Print ShokoCredentialsInvalid])
     else (Ret (PDict reply), after st [post])).
Proof.
  intros post. split.
  - intros x H. run_script. rewrite H. same_state.
  - intros reply H. run_script. rewrite H. unfold rejected. cbn [py_contains py_item].
    destruct (assoc "status" reply) as [status|]; [|same_state].
    destruct (py_is_400_or_401 status); same_state.
Qed.

Lemma shoko_auth_verdict_witness :
  shoko_auth demo_cfg
    (demo_services one_episode (auth_web (inr (ServiceError "connection refused"))))
    (initial []) =
  (Exit 1, after (initial [])
     [Http POST (auth_url demo_cfg) (Some (auth_body demo_cfg)); Print ShokoUnreachable]) /\
  shoko_auth demo_cfg
    (demo_services one_episode (auth_web (inl (PDict [("status", PInt 401)])))) (initial []) =
  (Exit 1, after (initial [])
     [Http POST (auth_url demo_cfg) (Some (auth_body demo_cfg));
      Print ShokoCredentialsInvalid]) /\
  shoko_auth demo_cfg
    (demo_services one_episode (auth_web (inl (PDict [("status", PInt 500)])))) (initial []) =
  (Ret (PDict [("status", PInt 500)]),
   after (initial []) [Http POST (auth_url demo_cfg) (Some (auth_body demo_cfg))]).
Proof.
  split; [|split].
  - apply (proj1 (shoko_auth_verdict demo_cfg
      (demo_services one_episode (auth_web (inr (ServiceError "connection refused"))))
      (initial [])) (ServiceError "connection refused")). reflexivity.
  - apply (proj2 (shoko_auth_verdict demo_cfg
      (demo_services one_episode (auth_web (inl (PDict [("status", PInt 401)]))))
      (initial [])) [("status", PInt 401)]). reflexivity.
  - apply (proj2 (shoko_auth_verdict demo_cfg
      (demo_services one_episode (auth_web (inl (PDict [("status", PInt 500)]))))
      (initial [])) [("status", PInt 500)]). reflexivity.
Defined.

(** A server that cannot be reached for one identity ends the whole run
    with status 1: the identities that follow are never processed. *)
Theorem server_not_found_is_fatal (fl : flavour) (cfg : config) (svc : services)
    (shoko_import : bool) (relative_date : string) (auth : pyval)
    (watched_episodes : list string) (a : account) (st : state) (x : exn) :
  connect svc (trace st) a (server_name cfg) = inr x ->
  let stop := (@Exit unit 1,
               after st [PlexConnect a (server_name cfg); Print ServerNameNotFound]) in
  sync_libraries fl cfg svc shoko_import relative_date auth watched_episodes a st = stop /\
  forall rest,
    for_each (a :: rest)
      (sync_account fl cfg svc false relative_date auth watched_episodes) st = stop.
Proof.
  intros H stop. split.
  - run_script. rewrite H. unfold stop. f_equal. same_state.
  - intros rest. cbn [for_each]. run_script. rewrite H. unfold stop. f_equal. same_state.
Qed.

Lemma server_not_found_is_fatal_witness :
  for_each [admin0; kid]
    (sync_account Posix demo_cfg
       (faulty_services {| no_login := false; no_connect := true; no_section := false;
                           no_mark := false |} one_episode seen_web)
       false "999y" apikey_reply []) (initial []) =
  (Exit 1, after (initial []) [PlexConnect admin0 "home"; Print ServerNameNotFound]).
Proof.
  apply (proj2 (@server_not_found_is_fatal Posix demo_cfg
           (faulty_services {| no_login := false; no_connect := true; no_section := false;
                               no_mark := false |} one_episode seen_web)
           false "999y" apikey_reply [] admin0 (initial []) (ServiceError "no such server")
           eq_refl) [kid]).
Defined.

(** A library that cannot be opened is reported and skipped, in either
    mode: nothing is searched or changed in it, its closing line is not
    printed, and the loop over the libraries goes on. *)
Theorem missing_library_is_skipped (fl : flavour) (cfg : config) (svc : services)
    (shoko_import : bool) (relative_date : string) (auth : pyval)
    (watched_episodes : list string) (a : account) (library : string)
    (st : state) (x : exn) :
  let querying := Print (Querying a (server_name cfg) library) in
  section svc (trace st ++ [querying]) a library = inr x ->
  sync_library fl cfg svc shoko_import relative_date auth watched_episodes a library st =
  (Ret tt, after st [querying; PlexSection a library; Print (SectionFailed x)]).
Proof.
  intros querying H. unfold sync_library, bind, try_except, print, perform, ret.
  cbn [emit trace]. fold querying. rewrite H. unfold after, emit. cbn [trace stdin accounts].
  now rewrite <- !app_assoc.
Qed.

Lemma missing_library_is_skipped_witness :
  sync_library Posix demo_cfg
    (faulty_services {| no_login := false; no_connect := false; no_section := true;
                        no_mark := false |} one_episode seen_web)
    true "999y" apikey_reply ["S01E01.mkv"] admin0 "Anime" (initial []) =
  (Ret tt, after (initial [])
     [Print (Querying admin0 "home" "Anime"); PlexSection admin0 "Anime";
      Print (SectionFailed (ServiceError "no such library"))]).
Proof.
  apply (@missing_library_is_skipped Posix demo_cfg
           (faulty_services {| no_login := false; no_connect := false; no_section := true;
                               no_mark := false |} one_episode seen_web)
           true "999y" apikey_reply ["S01E01.mkv"] admin0 "Anime" (initial [])
           (ServiceError "no such library")).
  reflexivity.
Defined.

(** In import mode a [markPlayed] that fails is not caught: the exception
    leaves the loops at once, before the progress line, and neither the
    other parts nor the other episodes are looked at. *)
Theorem failed_mark_aborts_import (fl : flavour) (svc : services) (a : account)
    (library : string) (watched_episodes : list string) (e : episode)
    (file : string) (files : list string) (rest : list episode) (st : state) (x : exn) :
  parts e = file :: files ->
  existsb (String.eqb (basename fl file)) watched_episodes = true ->
  episode_call svc (trace st) a library e "markPlayed" = inr x ->
  import_episodes fl svc a library watched_episodes (e :: rest) st =
  (Raise x, after st [PlexEpisodeCall a library e "markPlayed"]).
Proof.
  intros Hparts Hin Hcall. unfold import_episodes. cbn [for_each]. rewrite Hparts.
  cbn [for_each]. unfold import_part, bind, perform. rewrite Hin, Hcall. same_state.
Qed.

Lemma failed_mark_aborts_import_witness :
  import_episodes Posix
    (faulty_services {| no_login := false; no_connect := false; no_section := false;
                        no_mark := true |} three_episodes watched_web)
    admin0 "Anime" ["S01E01.mkv"] (three_episodes admin0 "Anime" true) (initial []) =
  (Raise (ServiceError "timed out"),
   after (initial [])
     [PlexEpisodeCall admin0 "Anime" (ep "one" "/data/Show/S01E01.mkv") "markPlayed"]).
Proof.
  apply (@failed_mark_aborts_import Posix
           (faulty_services {| no_login := false; no_connect := false; no_section := false;
                               no_mark := true |} three_episodes watched_web)
           admin0 "Anime" ["S01E01.mkv"] (ep "one" "/data/Show/S01E01.mkv")
           "/data/Show/S01E01.mkv" []
           [ep "two" "/data/Show/S01E02.mkv"; ep "three" "/data/Show/S01E03.mkv"]
           (initial []) (ServiceError "timed out")); reflexivity.
Defined.

Lemma confirm_lines_exhausted (a : account) (lines : list string) (tr : list event) :
  Forall (fun l => is_yes l = false /\ is_no l = false) lines ->
  confirm_lines a lines tr =
  (Raise EOFError, [], (tr ++ reprompts a lines ++ [Input a])%list).
Proof.
  intros H. revert tr. induction H as [|l lines [Hy Hn] _ IH]; intros tr;
    cbn [confirm_lines reprompts flat_map app]; [reflexivity|].
  unfold is_yes, is_no in Hy, Hn. rewrite Hy, Hn, IH. now rewrite <- !app_assoc.
Qed.

(** When standard input runs out before a valid answer, [input] raises
    [EOFError], which the gate does not catch: the identity is left with
    its prompts alone on the trace and the run ends by that exception. *)
Theorem exhausted_stdin_raises (fl : flavour) (cfg : config) (svc : services)
    (relative_date : string) (auth : pyval) (watched_episodes : list string)
    (a : account) (st : state) :
  Forall (fun l => is_yes l = false /\ is_no l = false) (stdin st) ->
  sync_account fl cfg svc true relative_date auth watched_episodes a st =
  (Raise EOFError,
   {| trace := trace st ++ reprompts a (stdin st) ++ [Input a]; stdin := [];
      accounts := accounts st |}).
Proof.
  intros H. unfold sync_account, bind, except_skip_user, confirm.
  now rewrite (confirm_lines_exhausted a (trace st) H).
Qed.

Lemma exhausted_stdin_raises_witness :
  sync_account Posix demo_cfg (demo_services three_episodes watched_web) true "999y"
    apikey_reply ["S01E01.mkv"] admin0 (initial ["maybe"; "yes"]) =
  (Raise EOFError,
   {| trace := [Input admin0; Print PleaseEnterYN; Input admin0; Print PleaseEnterYN;
                Input admin0];
      stdin := []; accounts := [] |}).
Proof.
  apply (@exhausted_stdin_raises Posix demo_cfg (demo_services three_episodes watched_web)
           "999y" apikey_reply ["S01E01.mkv"] admin0 (initial ["maybe"; "yes"])).
  repeat constructor.
Defined.

(** ** Export over files that are already synchronised *)

Lemma for_each_exact {A} (l : list A) (body : A -> M unit) (ev : A -> list event) :
  (forall x st, body x st = (Ret tt, after st (ev x))) ->
  forall st, for_each l body st = (Ret tt, after st (flat_map ev l)).
Proof.
  intros H. induction l as [|x l IH]; intros st; cbn [for_each flat_map].
  - now rewrite after_nil.
  - rewrite (bind_ret (H x st)), IH, after_after. reflexivity.
Qed.

(** When every suffix query answers with a file whose watched state is
    known (anything but [None]), the record loop only asks: its trace is the
    list of the queries, one per location and in order, without any POST
    or message. *)
Theorem synced_files_are_left_alone (fl : flavour) (cfg : config) (svc : services)
    (auth key : pyval) (resp : string -> pyval) :
  py_item auth "apikey" = Ret key ->
  (forall h url, http svc h GET url None = inl (resp url)) ->
  (forall url, exists file0 watched,
      py_index (resp url) 0 = Ret file0 /\ py_item file0 "Watched" = Ret watched /\
      watched <> PNone) ->
  forall episodes st,
    export_episodes fl cfg svc auth episodes st =
    (Ret tt, after st (queries fl cfg key episodes)).
Proof.
  intros Hkey Hget Hseen episodes st. unfold export_episodes, queries.
  apply for_each_exact. clear st. intros e st.
  rewrite (for_each_exact (parts e) (export_part fl cfg svc auth e)
             (fun file => [Http GET (path_ends_with_url cfg (match_key fl file) (py_str key))
                             None])).
  - assert (E : forall (f : string -> event) l, flat_map (fun x => [f x]) l = map f l).
    { intros f l. induction l; cbn; congruence. }
    now rewrite E.
  - clear st. intros file st.
    rewrite (@export_part_queried fl cfg svc auth key e file st _ Hkey (Hget _ _)).
    destruct (Hseen (path_ends_with_url cfg (match_key fl file) (py_str key)))
      as (file0 & watched & H0 & Hw & Hk).
    unfold try_except, relay, bind, lift, ret. rewrite H0, Hw.
    destruct (py_is_none watched) eqn:E; [apply py_is_none_iff in E; contradiction|].
    reflexivity.
Qed.

Lemma synced_files_are_left_alone_witness :
  export_episodes Posix demo_cfg (demo_services three_episodes seen_web) apikey_reply
    (three_episodes admin0 "Anime" false) (initial []) =
  (Ret tt,
   after (initial [])
     [Http GET (path_ends_with_url demo_cfg "/S01E01.mkv" "k") None;
      Http GET (path_ends_with_url demo_cfg "/S01E02.mkv" "k") None;
      Http GET (path_ends_with_url demo_cfg "/S01E03.mkv" "k") None]).
Proof.
  apply (@synced_files_are_left_alone Posix demo_cfg (demo_services three_episodes seen_web)
           apikey_reply (PStr "k")
           (fun _ => file_reply (PStr "2024-05-01T20:15:00") [[11%Z]])).
  - reflexivity.
  - intros h url. reflexivity.
  - intros url. do 2 eexists. repeat split; try reflexivity. discriminate.
Defined.

(** ** What the engine leaves untouched *)

Section Keeps.

Context {S : Type} (proj : state -> S).
Hypothesis proj_emit : forall e st, proj (emit e st) = proj st.

Lemma keeps_ret {A} (a : A) : keeps proj (ret a).
Proof. now intros st. Qed.

Lemma keeps_lift {A} (o : outcome A) : keeps proj (lift o).
Proof. now intros st. Qed.

Lemma keeps_exit {A} (c : Z) : keeps proj (@exit A c).
Proof. now intros st. Qed.

Lemma keeps_get_accounts : keeps proj get_accounts.
Proof. now intros st. Qed.

Lemma keeps_print (m : msg) : keeps proj (print m).
Proof. intros st. apply proj_emit. Qed.

Lemma keeps_perform {A} (e : event) (answer : list event -> A + exn) :
  keeps proj (perform e answer).
Proof. intros st. unfold perform. destruct (answer (trace st)); apply proj_emit. Qed.

Lemma keeps_bind {A B} (m : M A) (f : A -> M B) :
  keeps proj m -> (forall a, keeps proj (f a)) -> keeps proj (bind m f).
Proof.
  intros Hm Hf st. unfold bind. specialize (Hm st).
  destruct (m st) as [[a | e | c] st1]; cbn [snd] in *; try assumption.
  now rewrite Hf.
Qed.

Lemma keeps_try_except {A} (m : M A) (h : exn -> M A) :
  keeps proj m -> (forall e, keeps proj (h e)) -> keeps proj (try_except m h).
Proof.
  intros Hm Hh st. unfold try_except. specialize (Hm st).
  destruct (m st) as [[a | e | c] st1]; cbn [snd] in *; try assumption.
  now rewrite Hh.
Qed.

Lemma keeps_for_each {A} (l : list A) (body : A -> M unit) :
  (forall x, keeps proj (body x)) -> keeps proj (for_each l body).
Proof.
  intros H. induction l; cbn [for_each]; [apply keeps_ret | apply keeps_bind; auto].
Qed.

Lemma keeps_comprehension {A B} (l : list A) (f : A -> M B) :
  (forall x, keeps proj (f x)) -> keeps proj (comprehension l f).
Proof.
  intros H. induction l; cbn [comprehension]; [apply keeps_ret|].
  apply keeps_bind; auto. intros y. apply keeps_bind; auto. intros ys. apply keeps_ret.
Qed.

End Keeps.

Lemma keeps_except_skip_user {S A} (proj : state -> S) (m h : M A) :
  keeps proj m -> keeps proj h -> keeps proj (except_skip_user m h).
Proof.
  intros Hm Hh st. unfold except_skip_user. specialize (Hm st).
  destruct (m st) as [[a | [] | c] st1]; cbn [snd] in *; try assumption.
  now rewrite Hh.
Qed.

Lemma keeps_accounts_confirm (a : account) : keeps accounts (confirm a).
Proof.
  intros st. unfold confirm.
  now destruct (confirm_lines a (stdin st) (trace st)) as [[o r] t].
Qed.

Ltac keeps_step :=
  match goal with
  | |- keeps _ (bind _ _) => apply keeps_bind; [|intros ?]
  | |- keeps _ (ret _) => apply keeps_ret
  | |- keeps _ (lift _) => apply keeps_lift
  | |- keeps _ (exit _) => apply keeps_exit
  | |- keeps _ get_accounts => apply keeps_get_accounts
  | |- keeps _ (print _) => apply keeps_print; now intros
  | |- keeps _ (perform _ _) => apply keeps_perform; now intros
  | |- keeps _ (try_except _ _) => apply keeps_try_except; [|intros ?]
  | |- keeps _ (except_skip_user _ _) => apply keeps_except_skip_user
  | |- keeps accounts (confirm _) => apply keeps_accounts_confirm
  | |- keeps _ (for_each _ _) => apply keeps_for_each; intros ?
  | |- keeps _ (comprehension _ _) => apply keeps_comprehension; intros ?
  | |- keeps _ (if ?b then _ else _) => destruct b
  end.

(** Once the identities are resolved the list of accounts is never
    changed, in either mode; and in export mode nothing is read from
    standard input and no prompt is shown: the confirmation gate belongs
    to import mode alone. *)
Theorem export_never_prompts (fl : flavour) (cfg : config) (svc : services)
    (relative_date : string) (auth : pyval) (st : state) :
  (forall shoko_import,
     accounts (snd (engine fl cfg svc shoko_import relative_date auth st)) = accounts st) /\
  stdin (snd (engine fl cfg svc false relative_date auth st)) = stdin st /\
  exists evs,
    trace (snd (engine fl cfg svc false relative_date auth st)) = (trace st ++ evs)%list /\
    Forall (fun e => is_prompt e = false) evs.
Proof.
  split; [|split].
  - intros shoko_import.
    assert (H : keeps accounts (engine fl cfg svc shoko_import relative_date auth)).
    { unfold_script. repeat keeps_step. }
    apply H.
  - assert (H : keeps stdin (engine fl cfg svc false relative_date auth)).
    { unfold_script. repeat keeps_step. }
    apply H.
  - assert (H : only (fun e => is_prompt e = false)
                  (engine fl cfg svc false relative_date auth)).
    { unfold_script. repeat only_step; reflexivity. }
    apply H.
Qed.

(** ** The closing line *)

Lemma closed_bind {A B} (m : M A) (f : A -> M B) :
  only (fun e => e <> Print Complete) m ->
  (forall a st, exists evs,
      trace (snd (f a st)) = (trace st ++ evs)%list /\
      closed_by_complete (fst (f a st)) evs) ->
  forall st, exists evs,
    trace (snd (bind m f st)) = (trace st ++ evs)%list /\
    closed_by_complete (fst (bind m f st)) evs.
Proof.
  intros Hm Hf st. unfold bind. destruct (Hm st) as [evs [E F]].
  assert (Hno : ~ In (Print Complete) evs).
  { intros Hin. rewrite Forall_forall in F. now apply (F _ Hin). }
  destruct (m st) as [[a | e | c] st1]; cbn [fst snd] in *;
    try (exists evs; now split).
  destruct (Hf a st1) as [evs' [E' C']]. exists (evs ++ evs')%list.
  rewrite E', E, app_assoc. split; [reflexivity|].
  destruct (fst (f a st1)); cbn in *.
  - destruct C' as (before & -> & Hb). exists (evs ++ before)%list.
    rewrite app_assoc. split; [reflexivity|].
    intros Hin. apply in_app_or in Hin. tauto.
  - intros Hin. apply in_app_or in Hin. tauto.
  - intros Hin. apply in_app_or in Hin. tauto.
Qed.

Lemma closed_print_complete (st : state) :
  exists evs,
    trace (snd (print Complete st)) = (trace st ++ evs)%list /\
    closed_by_complete (fst (print Complete st)) evs.
Proof.
  exists [Print Complete]. split; [reflexivity|]. exists []. split; [reflexivity|].
  intros [].
Qed.

(** The closing line [Watched Sync Complete] is the mark of a run that
    ended normally: such a run ends with it and shows it nowhere else, and
    a run cut short by an exception or an exit never shows it. *)
Theorem complete_marks_normal_end (fl : flavour) (cfg : config) (svc : services)
    (argv : option string) (lines : list string) :
  closed_by_complete (fst (run fl cfg svc argv lines)) (snd (run fl cfg svc argv lines)).
Proof.
  assert (H : forall st, exists evs,
             trace (snd (main fl cfg svc argv st)) = (trace st ++ evs)%list /\
             closed_by_complete (fst (main fl cfg svc argv st)) evs).
  { unfold main.
    apply closed_bind; [unfold_script; repeat only_step; discriminate | intros args].
    apply closed_bind; [unfold_script; repeat only_step; discriminate | intros admin].
    apply closed_bind; [unfold_script; repeat only_step; discriminate | intros _].
    apply closed_bind; [unfold_script; repeat only_step; discriminate | intros auth].
    unfold engine.
    apply closed_bind; [apply only_print; discriminate | intros _].
    apply closed_bind; [unfold_script; repeat only_step; discriminate | intros watched].
    apply closed_bind; [apply only_get_accounts | intros accs].
    apply closed_bind; [unfold_script; repeat only_step; discriminate | intros _].
    apply closed_print_complete. }
  destruct (H (initial lines)) as [evs [E C]]. unfold run. cbn [fst snd].
  rewrite E. exact C.
Qed.

(** ** A session without an API key *)

(** [shoko_auth] does not look for the key, so a reply without it is only
    noticed where the key is first written into a URL, and never caught:
    import mode raises before it has asked Shoko anything, and in export
    mode each location raises before its suffix query, outside the [try]
    of the item. *)
Theorem missing_apikey_raises_at_first_use (fl : flavour) (cfg : config) (svc : services)
    (relative_date : string) (auth : pyval) (x : exn) :
  py_item auth "apikey" = Raise x ->
  (forall st,
     engine fl cfg svc true relative_date auth st =
     (Raise x, after st [Print Header; Print Generating])) /\
  (forall e file st, export_part fl cfg svc auth e file st = (Raise x, st)).
Proof.
  intros H. split.
  - intros st. unfold engine, generate_watched_episodes, apikey, bind, lift, print.
    rewrite H. f_equal. same_state.
  - intros e file st. unfold export_part, apikey, bind, lift. now rewrite H.
Qed.

Lemma missing_apikey_raises_at_first_use_witness :
  engine Posix demo_cfg (demo_services three_episodes watched_web) true "999y"
    (PDict [("status", PInt 500)]) (initial []) =
  (Raise KeyError, after (initial []) [Print Header; Print Generating]).
Proof.
  apply (proj1 (@missing_apikey_raises_at_first_use Posix demo_cfg
                  (demo_services three_episodes watched_web) "999y"
                  (PDict [("status", PInt 500)]) KeyError eq_refl)).
Defined.

(** ** Identity resolution when the roster answers *)

Lemma comprehension_exact {A B} (l : list A) (f : A -> M B) (g : A -> B) (ev : A -> event) :
  (forall x st, f x st = (Ret (g x), after st [ev x])) ->
  forall st, comprehension l f st = (Ret (map g l), after st (map ev l)).
Proof.
  intros H. induction l as [|x l IH]; intros st; cbn [comprehension map].
  - now rewrite after_nil.
  - rewrite (bind_ret (H x st)), (bind_ret (IH _)), after_after. reflexivity.
Qed.

Lemma logins_granted (svc : services) (answer : option string -> account + exn)
    (tokens : list (option string)) :
  (forall h t, token_login svc h t = answer t) ->
  forall st, exists o st',
    for_each tokens
      (fun userID =>
         a <- perform (PlexTokenLogin userID) (fun h => token_login svc h userID) ;;
         append_account a) st = (o, st') /\
    accounts st' = (accounts st ++ granted answer tokens)%list /\
    stdin st' = stdin st /\
    (o = Ret tt \/ exists x, o = Raise x).
Proof.
  intros H. induction tokens as [|t tokens IH]; intros st; cbn [for_each granted].
  - exists (Ret tt), st. rewrite app_nil_r. auto.
  - unfold bind at 1 2. unfold perform at 1. rewrite H.
    destruct (answer t) as [a | x]; cbn [append_account].
    + match goal with |- context [for_each tokens ?f ?s] =>
        destruct (IH s) as (o & st' & E & Ea & Es & Ho) end.
      exists o, st'. split; [exact E|]. cbn [accounts stdin emit] in Ea, Es.
      rewrite Ea, Es, <- app_assoc. auto.
    + exists (Raise x), (emit (PlexTokenLogin t) st). rewrite app_nil_r.
      repeat split. right. now exists x.
Qed.

(** When the roster lookups and the account switches answer, the
    identities of the run are the primary one (if enabled) followed by the
    delegated ones in the order of the configuration, up to the first
    login that is refused: that failure is reported, the identities logged
    in before it stay, those after it are dropped; and the resolution
    itself always returns normally. *)
Theorem delegates_granted_in_order (cfg : config) (svc : services) (admin : account)
    (st : state) (user_of : string -> plex_user) (token_of : plex_user -> option string)
    (answer : option string -> account + exn) :
  (forall h username, lookup_user svc h username = inl (user_of username)) ->
  (forall h user, query svc h POST (switch_url user) = inl (token_of user)) ->
  (forall h t, token_login svc h t = answer t) ->
  let usernames := match extra_users cfg with Some l => l | None => [] end in
  exists st',
    resolve_accounts cfg svc admin st = (Ret tt, st') /\
    accounts st' =
      (primary cfg admin ++
       granted answer (map (fun username => token_of (user_of username)) usernames))%list /\
    stdin st' = stdin st.
Proof.
  intros Hlookup Hswitch Hlogin usernames. unfold resolve_accounts, primary.
  set (base := if sync_admin cfg then [admin] else []).
  set (st0 := {| trace := trace st; stdin := stdin st; accounts := base |}).
  assert (E0 : set_accounts base st = (Ret tt, st0)) by reflexivity.
  rewrite (bind_ret E0). subst usernames.
  destruct (extra_users cfg) as [[|u0 us]|];
    try (exists st0; cbn; now rewrite app_nil_r).
  set (usernames := u0 :: us).
  assert (E1 := comprehension_exact usernames
            (fun username => perform (PlexUser username)
                               (fun h => lookup_user svc h username))
            user_of PlexUser
            (fun x s => perform_ok (e := PlexUser x) (Hlookup (trace s) x)) st0).
  assert (E2 := comprehension_exact (map user_of usernames)
            (fun user => perform (PlexQuery POST (switch_url user))
                           (fun h => query svc h POST (switch_url user)))
            token_of (fun user => PlexQuery POST (switch_url user))
            (fun x s => perform_ok (e := PlexQuery POST (switch_url x))
                          (Hswitch (trace s) x))
            (after st0 (map PlexUser usernames))).
  rewrite map_map in E2.
  destruct (@logins_granted svc answer
              (map (fun x => token_of (user_of x)) usernames) Hlogin
              (after (after st0 (map PlexUser usernames))
                 (map (fun user => PlexQuery POST (switch_url user))
                    (map user_of usernames))))
    as (o & st3 & E3 & Ea & Es & Ho).
  cbn [after accounts stdin st0] in Ea, Es.
  destruct Ho as [-> | [x ->]].
  - exists st3. erewrite try_ret;
      [|rewrite (bind_ret E1), (bind_ret E2); exact E3]. repeat split; assumption.
  - exists (emit (Print (Failed x)) st3). erewrite try_raise;
      [|rewrite (bind_ret E1), (bind_ret E2); exact E3].
    repeat split; assumption.
Qed.

Lemma delegates_granted_in_order_witness :
  exists st',
    resolve_accounts kid_first_cfg roster_services admin0 (initial []) = (Ret tt, st') /\
    accounts st' = [admin0; kid] /\ stdin st' = [].
Proof.
  apply (@delegates_granted_in_order kid_first_cfg roster_services admin0 (initial [])
           roster_user roster_token account_of_token); intros; reflexivity.
Defined.

(** ** Quoting the key into the URL *)

Lemma hex_digit_safe (n : nat) : (n < 16)%nat -> is_unreserved (hex_digit n) = true.
Proof.
  intros H. do 16 (destruct n as [|n]; [reflexivity|]). lia.
Qed.

Lemma hex_value_digit (n : nat) : (n < 16)%nat -> hex_value (hex_digit n) = n.
Proof.
  intros H. do 16 (destruct n as [|n]; [reflexivity|]). lia.
Qed.

Lemma nat_of_ascii_bound (c : ascii) : (nat_of_ascii c < 256)%nat.
Proof. destruct c as [[] [] [] [] [] [] [] []]; vm_compute; lia. Qed.

(** A quoted key is made of unreserved characters, [/] and [%] alone, so
    it cannot break out of its place in the query string (no [&], [?],
    [=], [#] or space survives), and quoting loses nothing: decoding the
    escapes gives the key back, so that different keys give different
    queries. *)
Theorem quote_is_safe_and_reversible (s : string) :
  contains_char (fun c => negb (url_safe c)) (quote s) = false /\
  percent_decode (quote s) = s.
Proof.
  assert (Hdec : forall t, percent_decode (quote t) = t).
  { induction t as [|c r IH]; [reflexivity|]. cbn [quote].
    destruct (is_unreserved c || Ascii.eqb c slash) eqn:E.
    - cbn [percent_decode]. destruct (Ascii.eqb_spec c "%") as [-> | _].
      + discriminate.
      + now rewrite IH.
    - cbn [percent_decode]. rewrite Ascii.eqb_refl, IH. f_equal.
      pose proof (nat_of_ascii_bound c) as Hc.
      rewrite !hex_value_digit.
      + rewrite <- Nat.div_mod_eq. apply ascii_nat_embedding.
      + apply Nat.mod_upper_bound. lia.
      + apply Nat.Div0.div_lt_upper_bound. lia. }
  split; [|apply Hdec].
  induction s as [|c r IH]; [reflexivity|]. cbn [quote].
    destruct (is_unreserved c || Ascii.eqb c slash) eqn:E.
  - cbn [contains_char]. rewrite IH. unfold url_safe. rewrite E. reflexivity.
  - pose proof (nat_of_ascii_bound c) as Hc.
    cbn [contains_char]. rewrite IH. unfold url_safe at 2 3.
    rewrite !hex_digit_safe.
    + reflexivity.
    + apply Nat.mod_upper_bound. lia.
    + apply Nat.Div0.div_lt_upper_bound. lia.
Qed.

(** ** The key against POSIX paths *)

Lemma is_suffix_iff (k s : string) : is_suffix k s = true <-> exists pre, s = pre ++ k.
Proof.
  split.
  - induction s as [|c r IH]; cbn [is_suffix]; intros H.
    + rewrite orb_false_r in H. apply String.eqb_eq in H. subst. now exists EmptyString.
    + apply orb_true_iff in H as [H | H].
      * apply String.eqb_eq in H. subst. now exists EmptyString.
      * destruct (IH H) as [pre ->]. now exists (String c pre).
  - intros [pre ->]. apply is_suffix_append.
Qed.

Lemma contains_char_append (p : ascii -> bool) (a b : string) :
  contains_char p (a ++ b) = contains_char p a || contains_char p b.
Proof. induction a as [|c a IH]; cbn; [reflexivity|]. now rewrite IH, orb_assoc. Qed.

Lemma after_last_append (p : ascii -> bool) (pre b : string) (c : ascii) :
  p c = true -> contains_char p b = false ->
  after_last p (pre ++ String c b) = b.
Proof.
  intros Hc Hb. induction pre as [|d pre IH]; cbn [append after_last].
  - now rewrite Hb, Hc.
  - rewrite contains_char_append. cbn [contains_char]. rewrite Hc, orb_true_r. exact IH.
Qed.

Lemma after_last_split (p : ascii -> bool) (s : string) :
  contains_char p s = true ->
  exists pre c, p c = true /\ s = pre ++ String c (after_last p s).
Proof.
  induction s as [|d r IH]; cbn [contains_char after_last]; [discriminate|].
  intros H. destruct (contains_char p r) eqn:E.
  - destruct (IH eq_refl) as (pre & c & Hc & Hr). exists (String d pre), c.
    split; [assumption|]. cbn. now rewrite <- Hr.
  - rewrite orb_false_r in H. rewrite H. now exists EmptyString, d.
Qed.

(** On POSIX a path ends with the key of a file exactly when it has a
    directory part and its final component is the file's name: the leading
    separator keeps [S01E01.mkv] from matching a longer name that merely
    ends with it. *)
Theorem key_matches_final_component (file stored : string) :
  is_suffix (match_key Posix file) stored = true <->
  contains_char (is_sep Posix) stored = true /\
  basename Posix stored = basename Posix file.
Proof.
  unfold match_key. cbn [basename sep].
  pose proof (after_last_no_sep (is_sep Posix) file) as Hb.
  rewrite is_suffix_iff. split.
  - intros [pre ->]. split.
    + rewrite contains_char_append. cbn. apply orb_true_r.
    + now apply after_last_append.
  - intros [Hc Hs]. destruct (after_last_split (is_sep Posix) stored Hc) as (pre & c & Hsep & E).
    exists pre. rewrite E at 1. rewrite Hs. cbn in Hsep.
    apply Ascii.eqb_eq in Hsep. now subst c.
Qed.

Lemma key_matches_final_component_witness :
  is_suffix (match_key Posix "/data/Show/S01E01.mkv") "/mnt/media/Show/S01E01.mkv" = true /\
  is_suffix (match_key Posix "/data/Show/S01E01.mkv") "/mnt/media/Show/xS01E01.mkv" = false.
Proof.
  split.
  - apply (proj2 (key_matches_final_component "/data/Show/S01E01.mkv"
                    "/mnt/media/Show/S01E01.mkv")).
    split; reflexivity.
  - destruct (is_suffix (match_key Posix "/data/Show/S01E01.mkv")
                "/mnt/media/Show/xS01E01.mkv") eqn:E; [|reflexivity].
    apply (proj1 (key_matches_final_component "/data/Show/S01E01.mkv"
                    "/mnt/media/Show/xS01E01.mkv")) in E.
    destruct E as [_ E]. discriminate.
Defined.

(** ** The durations of the command line *)

Lemma digit_range (lo : nat) (c : ascii) :
  (48 + lo <=? nat_of_ascii c)%nat && (nat_of_ascii c <=? 57)%nat = true ->
  exists d, lo <= d <= 9 /\ c = dg d.
Proof.
  intros H. apply andb_true_iff in H as [H1 H2].
  apply Nat.leb_le in H1, H2.
  exists (nat_of_ascii c - 48). split; [lia|].
  unfold dg. replace (48 + (nat_of_ascii c - 48)) with (nat_of_ascii c) by lia.
  now rewrite ascii_nat_embedding.
Qed.

Lemma eol_end (p : nat) (s : string) :
  re_go Eol p s (fun _ _ => true) = true -> In s [EmptyString; String newline EmptyString].
Proof.
  destruct s as [|a [|b r]]; cbn [re_go In]; intros H.
  - now left.
  - destruct (Ascii.eqb_spec a newline) as [E | _]; [rewrite E; right; now left | discriminate].
  - discriminate.
Qed.

Lemma units_then_end (p : nat) (s : string) :
  re_go (Cat re_units Eol) p s (fun _ _ => true) = true ->
  exists u tail, In u units /\ In tail [EmptyString; String newline EmptyString] /\
                 s = u ++ tail.
Proof.
  unfold re_units. cbn [re_go re_word]. destruct s as [|a s]; [discriminate|].
  rewrite !orb_true_iff.
  intros [H | [H | [H | [H | [H | H]]]]].
  - destruct (Ascii.eqb_spec a "m") as [-> | _]; [|discriminate].
    apply (eol_end 0) in H. exists "m", s. unfold units. cbn [In] in *. auto 10.
  - destruct (Ascii.eqb_spec a "h") as [-> | _]; [|discriminate].
    apply (eol_end 0) in H. exists "h", s. unfold units. cbn [In] in *. auto 10.
  - destruct (Ascii.eqb_spec a "d") as [-> | _]; [|discriminate].
    apply (eol_end 0) in H. exists "d", s. unfold units. cbn [In] in *. auto 10.
  - destruct (Ascii.eqb_spec a "w") as [-> | _]; [|discriminate].
    apply (eol_end 0) in H. exists "w", s. unfold units. cbn [In] in *. auto 10.
  - destruct (Ascii.eqb_spec a "m") as [-> | _]; [|discriminate].
    destruct s as [|b s]; [discriminate|].
    destruct (Ascii.eqb_spec b "o") as [-> | _]; [|discriminate].
    destruct s as [|c s]; [discriminate|].
    destruct (Ascii.eqb_spec c "n") as [-> | _]; [|discriminate].
    apply (eol_end 0) in H. exists "mon", s. unfold units. cbn [In] in *. auto 10.
  - destruct (Ascii.eqb_spec a "y") as [-> | _]; [|discriminate].
    apply (eol_end 0) in H. exists "y", s. unfold units. cbn [In] in *. auto 10.
Qed.

Lemma decimal_of_digits :
  forallb (fun d1 =>
    String.eqb (decimal d1) (String (dg d1) EmptyString) &&
    forallb (fun d2 =>
      String.eqb (decimal (10 * d1 + d2)) (String (dg d1) (String (dg d2) EmptyString)) &&
      forallb (fun d3 =>
        String.eqb (decimal (100 * d1 + 10 * d2 + d3))
          (String (dg d1) (String (dg d2) (String (dg d3) EmptyString))))
        (seq 0 10))
      (seq 0 10))
    (seq 1 9) = true.
Proof. vm_compute. reflexivity. Qed.

Lemma durations_match :
  forallb (fun n =>
    forallb (fun u =>
      forallb (fun tail => re_match range_re (decimal n ++ u ++ tail))
        [EmptyString; String newline EmptyString])
      units)
    (seq 1 999) = true.
Proof. vm_compute. reflexivity. Qed.

Lemma range_re_duration (s : string) : re_match range_re s = true <-> is_duration s.
Proof.
  split.
  - unfold re_match, range_re.
    set (k := fun p t => re_go (Cat re_units Eol) p t (fun _ _ => true)).
    change (re_go (Alt d19 (Alt (Cat d19 d09) (Cat d19 (Cat d09 d09)))) 0 s k = true ->
            is_duration s).
    assert (Hk : forall p t, k p t = true ->
              exists u tail, In u units /\
                In tail [EmptyString; String newline EmptyString] /\ t = u ++ tail).
    { intros p t. apply units_then_end. }
    pose proof decimal_of_digits as D. rewrite forallb_forall in D.
    assert (D1 : forall d1, 1 <= d1 <= 9 ->
              decimal d1 = String (dg d1) EmptyString /\
              forall d2, d2 <= 9 ->
                decimal (10 * d1 + d2) = String (dg d1) (String (dg d2) EmptyString) /\
                forall d3, d3 <= 9 ->
                  decimal (100 * d1 + 10 * d2 + d3) =
                  String (dg d1) (String (dg d2) (String (dg d3) EmptyString))).
    { intros d1 H1. specialize (D d1). rewrite in_seq in D.
      assert (D' := D ltac:(lia)). apply andb_true_iff in D' as [Da Db].
      split; [now apply String.eqb_eq|].
      intros d2 H2. rewrite forallb_forall in Db. specialize (Db d2).
      rewrite in_seq in Db. assert (Db' := Db ltac:(lia)).
      apply andb_true_iff in Db' as [Dc Dd].
      split; [now apply String.eqb_eq|].
      intros d3 H3. rewrite forallb_forall in Dd. specialize (Dd d3).
      rewrite in_seq in Dd. apply String.eqb_eq. apply Dd. lia. }
    unfold d19, d09, is_duration. cbn [re_go].
    destruct s as [|c1 s]; [discriminate|].
    destruct (_ && _) eqn:E1; [|discriminate].
    apply (digit_range 1) in E1 as (d1 & H1 & ->).
    destruct (D1 d1 H1) as [Da Db].
    rewrite !orb_true_iff. intros [H | [H | H]].
    + apply Hk in H as (u & tail & Hu & Ht & ->).
      exists d1, u, tail. rewrite Da. repeat split; try assumption; lia.
    + destruct s as [|c2 s]; [discriminate|].
      destruct (_ && _) eqn:E2 in H; [|discriminate].
      apply (digit_range 0) in E2 as (d2 & H2 & ->).
      destruct (Db d2 ltac:(lia)) as [Dc _].
      apply Hk in H as (u & tail & Hu & Ht & ->).
      exists (10 * d1 + d2), u, tail. rewrite Dc. repeat split; try assumption; lia.
    + destruct s as [|c2 s]; [discriminate|].
      destruct (_ && _) eqn:E2 in H; [|discriminate].
      apply (digit_range 0) in E2 as (d2 & H2 & ->).
      destruct s as [|c3 s]; [discriminate|].
      destruct (_ && _) eqn:E3 in H; [|discriminate].
      apply (digit_range 0) in E3 as (d3 & H3 & ->).
      destruct (Db d2 ltac:(lia)) as [_ Dd].
      apply Hk in H as (u & tail & Hu & Ht & ->).
      exists (100 * d1 + 10 * d2 + d3), u, tail. rewrite (Dd d3 ltac:(lia)).
      repeat split; try assumption; lia.
  - intros (n & u & tail & Hn & Hu & Ht & ->).
    pose proof durations_match as D. rewrite forallb_forall in D.
    specialize (D n). rewrite in_seq in D. assert (D' := D ltac:(lia)).
    rewrite forallb_forall in D'. specialize (D' u Hu).
    rewrite forallb_forall in D'. exact (D' tail Ht).
Qed.

(** The durations [arg_parse] lets through are the numbers from 1 to 999,
    written without a leading zero, followed by one of the six suffixes;
    Python's [$] also lets one final newline through, and the value handed
    on is the lower-cased argument. *)
Theorem accepted_durations (arg v : string) :
  arg_parse arg = Ret v <->
  v = lower arg /\ (v = "import" \/ is_duration v).
Proof.
  unfold arg_parse. rewrite <- range_re_duration. split.
  - destruct (re_match range_re (lower arg)) eqn:E; cbn [negb andb].
    + intros [= <-]. auto.
    + destruct (String.eqb_spec (lower arg) "import") as [E' | E']; cbn [negb].
      * intros [= <-]. auto.
      * discriminate.
  - intros [-> [H | H]].
    + rewrite H. cbn. now rewrite andb_false_r.
    + now rewrite H.
Qed.

(** ** A watched episode without a file *)

Lemma watched_filenames_stop (fl : flavour) (good : list pyval) (paths : list string)
    (bad : pyval) (rest : list pyval) :
  Forall2 first_location good paths ->
  py_item bad "Files" = Ret (PList []) ->
  forall st, comprehension (good ++ bad :: rest)%list (watched_filename fl) st =
             (Raise IndexError, st).
Proof.
  intros Hgood Hbad.
  induction Hgood as [|record path records paths H _ IH]; intros st;
    cbn [app comprehension].
  - assert (E : watched_filename fl bad st = (Raise IndexError, st)).
    { unfold watched_filename, bind, lift. now rewrite Hbad. }
    now rewrite (bind_raise E).
  - destruct H as (files & file0 & locations & location0 & H1 & H2 & H3 & H4 & H5).
    assert (E : watched_filename fl record st = (Ret (basename fl path), st)).
    { unfold watched_filename, bind, lift. now rewrite H1, H2, H3, H4, H5. }
    rewrite (bind_ret E). now rewrite (bind_raise (IH st)).
Qed.

(** In import mode one watched episode that Shoko lists without a file
    ends the run with [IndexError] while the list is being built (line 94):
    the request to Shoko is the last thing that happens, no identity is
    asked and nothing is marked, whatever the records before and after it
    hold. *)
Theorem fileless_record_aborts_import
    (fl : flavour) (cfg : config) (svc : services) (relative_date : string)
    (auth key shoko_watched lst : pyval)
    (good : list pyval) (paths : list string) (bad : pyval) (rest : list pyval) :
  py_item auth "apikey" = Ret key ->
  (forall h, http svc h GET (watched_list_url cfg (py_str key)) None = inl shoko_watched) ->
  py_item shoko_watched "List" = Ret lst ->
  py_iter lst = Ret (good ++ bad :: rest)%list ->
  Forall2 first_location good paths ->
  py_item bad "Files" = Ret (PList []) ->
  forall st,
    engine fl cfg svc true relative_date auth st =
    (Raise IndexError,
     after st [Print Header; Print Generating;
               Http GET (watched_list_url cfg (py_str key)) None]).
Proof.
  intros Hkey Hlist Hl Hiter Hgood Hbad st.
  unfold engine, generate_watched_episodes, apikey, requests_get, get_accounts,
    bind, lift, print, perform, ret.
  rewrite Hkey, Hlist, Hl, Hiter.
  rewrite (@watched_filenames_stop fl good paths bad rest Hgood Hbad).
  same_state.
Qed.

Lemma fileless_record_aborts_import_witness :
  engine Posix demo_cfg (demo_services three_episodes fileless_web) true "999y"
    apikey_reply (initial ["y"]) =
  (Raise IndexError,
   after (initial ["y"])
     [Print Header; Print Generating; Http GET (watched_list_url demo_cfg "k") None]).
Proof.
  assert (H : Forall2 first_location [watched_record] ["Show/S01E01.mkv"]).
  { constructor; [|constructor]. unfold first_location.
    do 4 eexists. repeat split; reflexivity. }
  apply (@fileless_record_aborts_import Posix demo_cfg
           (demo_services three_episodes fileless_web) "999y"
           apikey_reply (PStr "k")
           (PDict [("List", PList [watched_record; fileless_record])])
           (PList [watched_record; fileless_record])
           [watched_record] ["Show/S01E01.mkv"] fileless_record []
           eq_refl (fun _ => eq_refl) eq_refl eq_refl H eq_refl).
Defined.

(** ** Nobody to synchronise *)

(** With the administrator left out and no extra user configured, a run
    without argument still logs in to Plex and to Shoko, and then ends
    normally between the header and the closing line: no server is
    connected to, no library queried and nothing written. *)
Theorem nobody_to_sync (fl : flavour) (cfg : config) (svc : services)
    (lines : list string) (admin : account) (reply : list (string * pyval)) :
  sync_admin cfg = false ->
  extra_users cfg = None \/ extra_users cfg = Some [] ->
  admin_answer cfg svc [] = inl admin ->
  http svc [admin_login cfg] POST (auth_url cfg) (Some (auth_body cfg)) = inl (PDict reply) ->
  rejected reply = false ->
  run fl cfg svc None lines =
  (Ret tt,
   [admin_login cfg; Http POST (auth_url cfg) (Some (auth_body cfg));
    Print Header; Print Complete]).
Proof.
  intros Hadmin Hextra Hlogin Hauth Hok. unfold run, main.
  assert (Hp : parse_args None (initial lines) = (Ret ("999y", false), initial lines))
    by reflexivity.
  rewrite (bind_ret Hp).
  assert (Ha : plex_admin cfg svc (initial lines) =
               (Ret admin, after (initial lines) [admin_login cfg])).
  { unfold plex_admin, admin_answer, admin_login in *.
    destruct (negb (String.eqb (plex_token cfg) EmptyString)).
    - erewrite try_ret; [|apply perform_ok; exact Hlogin]. reflexivity.
    - erewrite try_ret; [|apply perform_ok; exact Hlogin]. reflexivity. }
  rewrite (bind_ret Ha).
  set (st1 := {| trace := [admin_login cfg]; stdin := lines; accounts := [] |}).
  assert (Hr : resolve_accounts cfg svc admin (after (initial lines) [admin_login cfg]) =
               (Ret tt, st1)).
  { unfold resolve_accounts, bind, set_accounts, ret. rewrite Hadmin.
    destruct Hextra as [-> | ->]; reflexivity. }
  rewrite (bind_ret Hr).
  assert (Hs : shoko_auth cfg svc st1 =
               (Ret (PDict reply),
                after st1 [Http POST (auth_url cfg) (Some (auth_body cfg))])).
  { run_script. cbn [trace st1]. rewrite Hauth. unfold rejected in Hok.
    cbn [py_contains py_item].
    destruct (assoc "status" reply) as [status|]; [|same_state].
    rewrite Hok. same_state. }
  rewrite (bind_ret Hs). reflexivity.
Qed.

Lemma nobody_to_sync_witness :
  run Posix idle_cfg (demo_services three_episodes gap_web) None ["y"] =
  (Ret tt,
   [PlexTokenLogin (Some "t0"); Http POST (auth_url idle_cfg) (Some (auth_body idle_cfg));
    Print Header; Print Complete]).
Proof.
  apply (@nobody_to_sync Posix idle_cfg (demo_services three_episodes gap_web) ["y"]
           admin0 [("apikey", PStr "k")] eq_refl (or_intror eq_refl) eq_refl eq_refl eq_refl).
Defined.
